(** * Pagination: a shallow embedding of src/js/components/Pagination/Pagination.ts

    The component keeps two pieces of state of its own, the [items] array and
    the [list] element, and works on the host document through the helpers of
    utils/ and on the carousel through [Controller], [Slides], [Elements] and
    [Direction].  The embedding follows the source function by function:

    - the host document is a store of elements addressed by identity
      ([elem]); an item holds references into it, so that what [update]
      does to [prev.button] is seen through every other reference;
    - the collaborators the component only calls into are read from an
      environment [Env], one snapshot for each call of a component function;
    - what the component tells the outside ([emit], [go], [focus],
      [prevent]) is appended to the list [calls].

    Numbers are JavaScript numbers that hold counters and indices; they are
    integers here, with the values a division can produce besides
    ([Number]).  Integers stay far below 2^53, where the host arithmetic is
    exact. *)

From stdpp Require Import gmap strings list pretty.

Local Open Scope Z_scope.

(** ** Numbers *)

Inductive Number :=
  | Int (z : Z)
  | PosInfinity
  | NegInfinity
  | NaN.

#[global] Instance Number_eq_dec : EqDecision Number.
Proof. solve_decision. Defined.

(** [ceil( a / b )] on integers. *)
Definition ceil_div (a b : Z) : Number :=
  if decide (b = 0) then
    if decide (0 < a) then PosInfinity
    else if decide (a < 0) then NegInfinity else NaN
  else Int (- ((- a) / b)).

(** [a % b]: the remainder takes the sign of the dividend. *)
Definition js_rem (a b : Z) : Number :=
  if decide (b = 0) then NaN else Int (Z.rem a b).

(** [array[ n ]]: [undefined] out of range and for a key that is no index. *)
Definition js_index {A} (l : list A) (n : Number) : option A :=
  match n with
  | Int z => if decide (0 ≤ z) then l !! Z.to_nat z else None
  | _ => None
  end.

(** How many times [for ( let i = 0; i < max; i++ )] runs its body; [None]
    when the loop never ends. *)
Definition iterations (max : Number) : option nat :=
  match max with
  | Int z => Some (Z.to_nat z)
  | PosInfinity => None
  | NegInfinity | NaN => Some 0%nat
  end.

(** ** The host document *)

(** An element is known by its identity, a number given when it is created. *)
Abbreviation elem := nat (only parsing).

(** The node an element hangs under: [Elements.root], [Elements.slider], or
    an element the component created. *)
Inductive Node :=
  | Root
  | Slider
  | Own (x : elem).

#[global] Instance Node_eq_dec : EqDecision Node.
Proof. solve_decision. Defined.

(** Modelled from the spec: constants/attributes is not among the sources.
    The attribute names are the constants the component imports from it, kept
    as names, and [Attr] for a name written as a literal. *)
Inductive AttrName :=
  | ARIA_CONTROLS
  | ARIA_LABEL
  | ARIA_SELECTED
  | ROLE
  | TAB_INDEX
  | Attr (name : string).

#[global] Instance AttrName_eq_dec : EqDecision AttrName.
Proof. solve_decision. Defined.

#[global] Instance AttrName_countable : Countable AttrName.
Proof.
  refine (inj_countable'
    (λ a, match a with
          | ARIA_CONTROLS => inl 0%nat | ARIA_LABEL => inl 1%nat
          | ARIA_SELECTED => inl 2%nat | ROLE => inl 3%nat
          | TAB_INDEX => inl 4%nat | Attr n => inr n
          end)
    (λ c, match c with
          | inl 0%nat => ARIA_CONTROLS | inl 1%nat => ARIA_LABEL
          | inl 2%nat => ARIA_SELECTED | inl 3%nat => ROLE
          | inl _ => TAB_INDEX | inr n => Attr n
          end) _).
  by intros [].
Defined.

(** The value handed to [setAttribute]: a string, a number or a boolean.  The
    element keeps the value it was last given under each name; what the
    helper and the host make of it (a string, or no attribute for an empty
    value) is not part of the model. *)
Inductive AttrVal :=
  | AStr (s : string)
  | ANum (z : Z)
  | ABool (b : bool).

#[global] Instance AttrVal_eq_dec : EqDecision AttrVal.
Proof. solve_decision. Defined.

(** Modelled from the spec: constants/classes is not among the sources.
    The status classes are the constants the component imports from it, kept
    as names; [Class] is a class configured in [options.classes], which is
    kept apart from the status classes. *)
Inductive ClassName :=
  | CLASS_ACTIVE
  | CLASS_FOCUS
  | Class (name : string).

#[global] Instance ClassName_eq_dec : EqDecision ClassName.
Proof. solve_decision. Defined.

Record Element := mkElement {
  tag : string;
  classes : list ClassName;
  attrs : gmap AttrName AttrVal;
  parent : option Node;
}.

#[global] Instance Element_eq_dec : EqDecision Element.
Proof. solve_decision. Defined.

(** ** The component's data *)

Record PaginationItem := mkItem {
  li : elem;
  button : elem;
  page : Z;
}.

#[global] Instance PaginationItem_eq_dec : EqDecision PaginationItem.
Proof. solve_decision. Defined.

(** Modelled from the spec: constants/events is not among the sources.  The
    events of the carousel's bus are the constants the component imports
    from it, kept as names. *)
Inductive Event :=
  | EVENT_MOVE
  | EVENT_PAGINATION_MOUNTED
  | EVENT_PAGINATION_UPDATED
  | EVENT_REFRESH
  | EVENT_SCROLLED
  | EVENT_UPDATED.

#[global] Instance Event_eq_dec : EqDecision Event.
Proof. solve_decision. Defined.

(** The callbacks the component registers.  [apply( f, args )] is the
    function with its first arguments fixed, so a listener is the function
    together with them. *)
Inductive Handler :=
  | AddClass (x : elem) (c : ClassName)
  | RemoveClass (x : elem) (c : ClassName)
  | OnClick (page : Z)
  | OnKeydown (page : Z).

#[global] Instance Handler_eq_dec : EqDecision Handler.
Proof. solve_decision. Defined.

Inductive Subscriber :=
  | Init
  | Update.

#[global] Instance Subscriber_eq_dec : EqDecision Subscriber.
Proof. solve_decision. Defined.

(** What the component calls on the outside.  [Emit] carries the
    [{ list, items }] data and the items passed after it ([None] is
    [undefined]); the second argument of [go] is [None] when it is left
    out. *)
Inductive Call :=
  | Emit (event : Event) (list_ : option elem) (items : list PaginationItem)
         (args : list (option PaginationItem))
  | Go (control : string) (allowSameIndex : option bool)
  | Focus (x : elem)
  | Prevent (stopPropagation : bool).

Record KeyboardEvent := mkKeyboardEvent { key : string }.

(** [options.pagination]: [false], [true] or ['slider']. *)
Inductive PaginationOption :=
  | PaginationOff
  | PaginationOn
  | PaginationSlider.

Definition truthy (p : PaginationOption) : bool :=
  match p with PaginationOff => false | _ => true end.

(** The collaborators, as one call of a component function finds them: the
    options, [Splide], the components [Slides], [Elements], [Controller] and
    [Direction], and the two pure helpers of utils.  None of them is among
    the sources; each is a parameter. *)
Record Env := mkEnv {
  (* options *)
  pagination : PaginationOption;
  perPage : Z;
  classes_pagination : string;
  classes_page : string;
  i18n_select : string;
  i18n_pageX : string;
  i18n_slideX : string;
  (* Splide *)
  splide_length : Z;
  splide_index : Z;
  (* Components.Slides *)
  isEnough : bool;
  getIn : Z → list string;          (* the ids of the slides of a page *)
  (* Components.Elements *)
  has_slider : bool;
  (* Components.Controller *)
  hasFocus : bool;
  getIndex : bool → Z;              (* [getIndex( true )] is the previous index *)
  toPage : Z → Z;
  (* Components.Direction *)
  resolve : string → string;
  (* utils *)
  normalizeKey : KeyboardEvent → string;
  format : string → Z → string;
}.

(** The state: [items] and [list] of the component, the document, the
    listeners kept by the component's [EventInterface] ([bind] and [on]), and
    the calls made so far.  [list_] is [None] while [list] is [undefined] or
    [null]. *)
Record State := mkState {
  items : list PaginationItem;
  list_ : option elem;
  document : gmap elem Element;
  next : elem;
  listeners : list (elem * string * Handler);
  handlers : list (Event * Subscriber);
  calls : list Call;
}.

Definition initial : State := mkState [] None ∅ 0%nat [] [] [].

Definition set_items (f : list PaginationItem → list PaginationItem) (s : State) : State :=
  mkState (f (items s)) (list_ s) (document s) (next s) (listeners s) (handlers s) (calls s).
Definition set_list (l : option elem) (s : State) : State :=
  mkState (items s) l (document s) (next s) (listeners s) (handlers s) (calls s).
Definition set_document (f : gmap elem Element → gmap elem Element) (s : State) : State :=
  mkState (items s) (list_ s) (f (document s)) (next s) (listeners s) (handlers s) (calls s).
Definition set_listeners
    (f : list (elem * string * Handler) → list (elem * string * Handler)) (s : State) : State :=
  mkState (items s) (list_ s) (document s) (next s) (f (listeners s)) (handlers s) (calls s).
Definition set_handlers
    (f : list (Event * Subscriber) → list (Event * Subscriber)) (s : State) : State :=
  mkState (items s) (list_ s) (document s) (next s) (listeners s) (f (handlers s)) (calls s).
Definition call (c : Call) (s : State) : State :=
  mkState (items s) (list_ s) (document s) (next s) (listeners s) (handlers s) (calls s ++ [c]).

(** ** utils: DOM helpers

    The helpers of utils are not among the sources.  The spec has the
    component build elements, attach listeners and mirror the index into
    element attributes and classes; the helpers below do what their names
    say on one element of the document and nothing else. *)

Module El.
(** Modelled from the spec: [addClass] of utils; the class is added to the
    class list unless it is there. *)
Definition addClass (c : ClassName) (el : Element) : Element :=
  mkElement (tag el)
    (if decide (c ∈ classes el) then classes el else classes el ++ [c])
    (attrs el) (parent el).
(** Modelled from the spec: [removeClass] of utils. *)
Definition removeClass (c : ClassName) (el : Element) : Element :=
  mkElement (tag el) (filter (λ c', c' ≠ c) (classes el)) (attrs el) (parent el).
(** Modelled from the spec: [setAttribute] of utils; the element keeps the
    value under the name. *)
Definition setAttribute (a : AttrName) (v : AttrVal) (el : Element) : Element :=
  mkElement (tag el) (classes el) (<[a:=v]> (attrs el)) (parent el).
(** Modelled from the spec: [removeAttribute] of utils. *)
Definition removeAttribute (a : AttrName) (el : Element) : Element :=
  mkElement (tag el) (classes el) (delete a (attrs el)) (parent el).
(** Modelled from the spec: [remove] of utils; the node is taken out of its
    parent and keeps everything else. *)
Definition remove (el : Element) : Element :=
  mkElement (tag el) (classes el) (attrs el) None.
End El.

(** The helpers on an element of the document, found by its identity. *)

Definition addClass (x : elem) (c : ClassName) : State → State :=
  set_document (alter (El.addClass c) x).
Definition removeClass (x : elem) (c : ClassName) : State → State :=
  set_document (alter (El.removeClass c) x).
Definition setAttribute (x : elem) (a : AttrName) (v : AttrVal) : State → State :=
  set_document (alter (El.setAttribute a v) x).
Definition removeAttribute (x : elem) (a : AttrName) : State → State :=
  set_document (alter (El.removeAttribute a) x).

Definition remove (x : elem) : State → State :=
  set_document (alter El.remove x).

(** Modelled from the spec: [create( tag, attrs, parent )] of utils; a new
    element with the given classes and attributes, appended to [parent].  A
    string for [attrs] is a class; in an object the key [class] gives the
    classes and the other keys attributes. *)
Definition create (t : string) (cls : list ClassName) (ats : list (AttrName * AttrVal))
    (p : Node) (s : State) : elem * State :=
  let x := next s in
  (x, mkState (items s) (list_ s)
        (<[x := mkElement t cls (list_to_map ats) (Some p)]> (document s))
        (S x) (listeners s) (handlers s) (calls s)).

(** ** EventInterface

    The constructor is not among the sources.  It keeps the listeners the
    component binds to elements and the handlers it registers on the bus. *)

(** Modelled from the spec: [bind( target, events, callback )]; the listener
    is added after the ones bound before. *)
Definition bind (x : elem) (type : string) (h : Handler) : State → State :=
  set_listeners (λ ls, ls ++ [(x, type, h)]).

(** Modelled from the spec: [unbind( target, events )]; every listener of
    the target for one of the events is dropped. *)
Definition unbind (x : elem) (types : list string) : State → State :=
  set_listeners (filter (λ l, ¬ (l.1.1 = x ∧ l.1.2 ∈ types))).

(** Modelled from the spec: [on( events, callback )]; the callback is
    registered for each of the events. *)
Definition on (events : list Event) (h : Subscriber) : State → State :=
  set_handlers (λ hs, hs ++ ((λ ev, (ev, h)) <$> events)).

(** Modelled from the spec: [emit( event, { list, items }, ...args )]; the
    emission is recorded with the list and the items as they are then. *)
Definition emit (ev : Event) (args : list (option PaginationItem)) (s : State) : State :=
  call (Emit ev (list_ s) (items s) args) s.

(** ** The component *)

(** [getAt( index )] *)
Definition getAt (e : Env) (s : State) (index : Z) : option PaginationItem :=
  js_index (items s) (Int (toPage e index)).

(** [update()] *)
Definition update (e : Env) (s : State) : State :=
  let prev := getAt e s (getIndex e true) in
  let curr := getAt e s (getIndex e false) in
  let s :=
    match prev with
    | Some prev =>
        let s := removeClass (button prev) CLASS_ACTIVE s in
        let s := removeAttribute (button prev) ARIA_SELECTED s in
        setAttribute (button prev) TAB_INDEX (ANum (-1)) s
    | None => s
    end in
  let s :=
    match curr with
    | Some curr =>
        let s := addClass (button curr) CLASS_ACTIVE s in
        let s := setAttribute (button curr) ARIA_SELECTED (ABool true) s in
        setAttribute (button curr) TAB_INDEX (AStr "") s
    | None => s
    end in
  emit EVENT_PAGINATION_UPDATED [prev; curr] s.

(** [destroy()] *)
Definition destroy (s : State) : State :=
  match list_ s with
  | Some l =>
      let s := remove l s in
      let s := foldl (λ s item, unbind (button item) ["click"; "keydown"; "focus"] s)
                 s (items s) in
      let s := set_items (λ _, []) s in
      set_list None s
  | None => s
  end.

(** The node the list is appended to. *)
Definition parent_of (e : Env) : Node :=
  match pagination e with
  | PaginationSlider => if has_slider e then Slider else Root
  | _ => Root
  end.

(** [max] of [createPagination]. *)
Definition max (e : Env) : Number :=
  if hasFocus e then Int (splide_length e)
  else ceil_div (splide_length e) (perPage e).

(** One turn of the loop of [createPagination], for the page [i]. *)
Definition createItem (e : Env) (l : elem) (i : Z) (s : State) : State :=
  let '(li, s) := create "li" [] [] (Own l) s in
  let '(button, s) :=
    create "button" [Class (classes_page e)] [(Attr "type", AStr "button")] (Own li) s in
  let controls := getIn e i in
  let text :=
    if negb (hasFocus e) && bool_decide (1 < perPage e)
    then i18n_pageX e else i18n_slideX e in
  let s := bind button "click" (OnClick i) s in
  let s := bind button "keydown" (OnKeydown i) s in
  let s := setAttribute li ROLE (AStr "none") s in
  let s := setAttribute button ROLE (AStr "tab") s in
  let s := setAttribute button ARIA_CONTROLS (AStr (String.concat " " controls)) s in
  let s := setAttribute button ARIA_LABEL (AStr (format e text (i + 1))) s in
  let s := setAttribute button TAB_INDEX (ANum (-1)) s in
  set_items (λ its, its ++ [mkItem li button i]) s.

(** The loop [for ( let i = ...; i < max; i++ )], [n] turns from [i] on. *)
Fixpoint createItems (e : Env) (l : elem) (n : nat) (i : Z) (s : State) : State :=
  match n with
  | O => s
  | S n => createItems e l n (i + 1) (createItem e l i s)
  end.

(** [createPagination()]; [None] when the loop never ends. *)
Definition createPagination (e : Env) (s : State) : option State :=
  let '(l, s) := create "ul" [Class (classes_pagination e)] [] (parent_of e) s in
  let s := set_list (Some l) s in
  let s := bind l "focusin" (AddClass l CLASS_FOCUS) s in
  let s := bind l "focusout" (RemoveClass l CLASS_FOCUS) s in
  let s := setAttribute l ROLE (AStr "tablist") s in
  let s := setAttribute l ARIA_LABEL (AStr (i18n_select e)) s in
  n ← iterations (max e);
  Some (createItems e l n 0 s).

(** [init()] *)
Definition init (e : Env) (s : State) : option State :=
  let s := destroy s in
  if truthy (pagination e) && isEnough e then
    s ← createPagination e s;
    let s := emit EVENT_PAGINATION_MOUNTED [getAt e s (splide_index e)] s in
    Some (update e s)
  else Some s.

(** [mount()] *)
Definition mount (e : Env) (s : State) : option State :=
  s ← init e s;
  let s := on [EVENT_UPDATED; EVENT_REFRESH] Init s in
  Some (on [EVENT_MOVE; EVENT_SCROLLED] Update s).

(** [onClick( page )] *)
Definition onClick (page : Z) (s : State) : State :=
  call (Go (">" +:+ pretty page) (Some true)) s.

(** [onKeydown( page, e )].  [++page] and [--page] change [page] itself, and
    [go] is given [page]. *)
Definition onKeydown (e : Env) (page : Z) (ev : KeyboardEvent) (s : State) : State :=
  let length := Z.of_nat (length (items s)) in
  let key := normalizeKey e ev in
  let '(page, nextPage) :=
    if decide (key = resolve e "ArrowRight") then
      (page + 1, js_rem (page + 1) length)
    else if decide (key = resolve e "ArrowLeft") then
      (page - 1, js_rem (page - 1 + length) length)
    else if decide (key = "Home") then
      (page, Int 0)
    else if decide (key = "End") then
      (page, Int (length - 1))
    else (page, Int (-1)) in
  match js_index (items s) nextPage with
  | Some item =>
      let s := call (Focus (button item)) s in
      let s := call (Go (">" +:+ pretty page) None) s in
      call (Prevent true) s
  | None => s
  end.

(** ** Running the listeners

    What the host and the bus do with the listeners: an event delivered to
    an element runs the listeners bound to it for that type, and an event on
    the bus runs the handlers registered for it. *)

Definition handle (e : Env) (ev : KeyboardEvent) (h : Handler) (s : State) : State :=
  match h with
  | AddClass x c => addClass x c s
  | RemoveClass x c => removeClass x c s
  | OnClick p => onClick p s
  | OnKeydown p => onKeydown e p ev s
  end.

(** The listeners bound to the target for the event type, in the order they
    were bound. *)
Definition listeners_of (x : elem) (type : string)
    (ls : list (elem * string * Handler)) : list Handler :=
  snd <$> filter (λ l, l.1.1 = x ∧ l.1.2 = type) ls.

(** The host delivers an event of the given type to the element. *)
Definition dispatchEvent (e : Env) (x : elem) (type : string) (ev : KeyboardEvent)
    (s : State) : State :=
  foldl (λ s h, handle e ev h s) s (listeners_of x type (listeners s)).

Definition run (e : Env) (h : Subscriber) (s : State) : option State :=
  match h with
  | Init => init e s
  | Update => Some (update e s)
  end.

(** The carousel emits an event on its bus. *)
Definition fire (e : Env) (ev : Event) (s : State) : option State :=
  foldl (λ o h, s ← o; run e h s) (Some s)
    (snd <$> filter (λ h, h.1 = ev) (handlers s)).

(** * Specification vocabulary *)

Definition deactivate (el : Element) : Element :=
  El.setAttribute TAB_INDEX (ANum (-1))
    (El.removeAttribute ARIA_SELECTED (El.removeClass CLASS_ACTIVE el)).

Definition activate (el : Element) : Element :=
  El.setAttribute TAB_INDEX (AStr "")
    (El.setAttribute ARIA_SELECTED (ABool true) (El.addClass CLASS_ACTIVE el)).

(** [f] on the button of the item, when there is an item and [x] is its
    button. *)
Definition touch (o : option PaginationItem) (f : Element → Element) (x : elem)
    (el : Element) : Element :=
  match o with
  | Some it => if decide (button it = x) then f el else el
  | None => el
  end.

Definition prev_item (e : Env) (s : State) := getAt e s (getIndex e true).
Definition curr_item (e : Env) (s : State) := getAt e s (getIndex e false).

(** The classes other than the active class, in their order. *)
Definition other_classes (el : Element) : list ClassName :=
  filter (λ c, c ≠ CLASS_ACTIVE) (classes el).

(** The state of a button the two ways [update] leaves it. *)
Definition is_active (el : Element) : Prop :=
  (CLASS_ACTIVE ∈ classes el)
  ∧ attrs el !! ARIA_SELECTED = Some (ABool true)
  ∧ attrs el !! TAB_INDEX = Some (AStr "").

Definition is_inactive (el : Element) : Prop :=
  (CLASS_ACTIVE ∉ classes el)
  ∧ attrs el !! ARIA_SELECTED = None
  ∧ attrs el !! TAB_INDEX = Some (ANum (-1)).

(** ** The invariant of the component's states *)

(** What the invariant needs of an element: its tag and where it hangs. *)
Definition shape (el : Element) : string * option Node := (tag el, parent el).

Record wf (s : State) : Prop := mk_wf {
  wf_no_list : list_ s = None → items s = [];
  wf_list : ∀ l, list_ s = Some l →
    ∃ el, document s !! l = Some el ∧ tag el = "ul";
  wf_buttons : NoDup (button <$> items s);
  wf_button : ∀ it, it ∈ items s →
    ∃ el, document s !! button it = Some el ∧ tag el = "button";
  wf_li : ∀ it, it ∈ items s →
    ∃ el, document s !! li it = Some el ∧ tag el = "li";
  wf_page : ∀ i it, items s !! i = Some it → page it = Z.of_nat i;
  wf_listeners : ∀ i it, items s !! i = Some it →
    filter (λ l, l.1.1 = button it) (listeners s) =
    [(button it, "click", OnClick (Z.of_nat i));
     (button it, "keydown", OnKeydown (Z.of_nat i))];
  wf_list_listeners : ∀ l, list_ s = Some l →
    filter (λ x, x.1.1 = l) (listeners s) =
    [(l, "focusin", AddClass l CLASS_FOCUS); (l, "focusout", RemoveClass l CLASS_FOCUS)];
  wf_next_document : ∀ x, is_Some (document s !! x) → (x < next s)%nat;
  wf_next_listeners : ∀ l, l ∈ listeners s → (l.1.1 < next s)%nat;
  wf_parents : ∀ x el y,
    document s !! x = Some el → parent el = Some (Own y) → (y < next s)%nat;
  wf_attached : ∀ x el,
    document s !! x = Some el → tag el = "ul" → is_Some (parent el) →
    list_ s = Some x;
  wf_children : ∀ l x el,
    list_ s = Some l → document s !! x = Some el → parent el = Some (Own l) →
    ∃ it, it ∈ items s ∧ li it = x;
}.

(** ** The elements [createPagination] builds *)

Definition ul_el (e : Env) : Element :=
  El.setAttribute ARIA_LABEL (AStr (i18n_select e))
    (El.setAttribute ROLE (AStr "tablist")
       (mkElement "ul" [Class (classes_pagination e)] ∅ (Some (parent_of e)))).

Definition li_el (l : elem) : Element :=
  El.setAttribute ROLE (AStr "none") (mkElement "li" [] ∅ (Some (Own l))).

Definition button_label (e : Env) (i : Z) : string :=
  format e
    (if negb (hasFocus e) && bool_decide (1 < perPage e)
     then i18n_pageX e else i18n_slideX e) (i + 1).

Definition button_el (e : Env) (li : elem) (i : Z) : Element :=
  El.setAttribute TAB_INDEX (ANum (-1))
    (El.setAttribute ARIA_LABEL (AStr (button_label e i))
       (El.setAttribute ARIA_CONTROLS (AStr (String.concat " " (getIn e i)))
          (El.setAttribute ROLE (AStr "tab")
             (mkElement "button" [Class (classes_page e)]
                (list_to_map [(Attr "type", AStr "button")]) (Some (Own li)))))).

(** Every item has the elements of its turn of the loop, as they were built. *)
Definition created (e : Env) (l : elem) (s : State) : Prop :=
  ∀ it, it ∈ items s →
    document s !! li it = Some (li_el l)
    ∧ document s !! button it = Some (button_el e (li it) (page it)).

(** The state [createPagination] works on before its loop. *)
Definition with_list (e : Env) (s : State) : State :=
  mkState (items s) (Some (next s)) (<[next s := ul_el e]> (document s)) (S (next s))
    (listeners s ++ [(next s, "focusin", AddClass (next s) CLASS_FOCUS);
                     (next s, "focusout", RemoveClass (next s) CLASS_FOCUS)])
    (handlers s) (calls s).

(** What one turn of the loop makes of a state. *)
Definition with_item (e : Env) (l : elem) (i : Z) (s : State) : State :=
  mkState (items s ++ [mkItem (next s) (S (next s)) i]) (list_ s)
    (<[S (next s) := button_el e (next s) i]> (<[next s := li_el l]> (document s)))
    (S (S (next s)))
    (listeners s ++ [(S (next s), "click", OnClick i); (S (next s), "keydown", OnKeydown i)])
    (handlers s) (calls s).

(** The listeners left when [unbind] has run for the button of every item. *)
Definition unbound (its : list PaginationItem) (ls : list (elem * string * Handler)) :
    list (elem * string * Handler) :=
  foldl (λ ls it,
           filter (λ l, ¬ (l.1.1 = button it ∧ l.1.2 ∈ ["click"; "keydown"; "focus"])) ls)
    ls its.

(** What [update] may change of an element: the active class and the two
    attributes; the tag, the parent, the other classes and the other
    attributes stay. *)
Definition same_but_state (el el' : Element) : Prop :=
  tag el' = tag el
  ∧ parent el' = parent el
  ∧ other_classes el' = other_classes el
  ∧ ∀ a, a ≠ ARIA_SELECTED → a ≠ TAB_INDEX → attrs el' !! a = attrs el !! a.

(** ** The component's operations as steps

    [P e s] says in which states [update] may be called with the
    collaborators as [e]. *)
Inductive step (P : Env → State → Prop) (s : State) : State → Prop :=
  | step_mount e s' : mount e s = Some s' → step P s s'
  | step_init e s' : init e s = Some s' → step P s s'
  | step_update e : P e s → step P s (update e s)
  | step_destroy : step P s (destroy s).

Inductive reachable (P : Env → State → Prop) : State → Prop :=
  | reachable_initial : reachable P initial
  | reachable_step s s' : reachable P s → step P s s' → reachable P s'.

Definition any_time (e : Env) (s : State) : Prop := True.

(** ** Roving tabindex *)

(** Every button is in one of the two states of [update], and at most one
    is active. *)
Definition marked (s : State) : Prop :=
  (∀ it, it ∈ items s →
     ∃ el, document s !! button it = Some el ∧ (is_active el ∨ is_inactive el))
  ∧ (∀ it it' el el',
       it ∈ items s → it' ∈ items s →
       document s !! button it = Some el → document s !! button it' = Some el' →
       is_active el → is_active el' → it = it').

(** The button carries the active class or the aria-selected attribute. *)
Definition selected (el : Element) : Prop :=
  CLASS_ACTIVE ∈ classes el ∨ is_Some (attrs el !! ARIA_SELECTED).

(** At most one button is selected, and the buttons with tabindex -1 are
    exactly the ones that are not. *)
Definition roving (s : State) : Prop :=
  (∀ it it' el el',
     it ∈ items s → it' ∈ items s →
     document s !! button it = Some el → document s !! button it' = Some el' →
     selected el → selected el' → it = it')
  ∧ (∀ it el,
       it ∈ items s → document s !! button it = Some el →
       (attrs el !! TAB_INDEX = Some (ANum (-1)) ↔ ¬ selected el)).

(** [update] finds the button that carries the active class, if there is
    one, at the page of [getIndex( true )] or of [getIndex()]. *)
Definition synced (e : Env) (s : State) : Prop :=
  ∀ it el,
    it ∈ items s → document s !! button it = Some el → CLASS_ACTIVE ∈ classes el →
    page it = toPage e (getIndex e true) ∨ page it = toPage e (getIndex e false).

(** ** What a pagination looks like

    Two states show the same pagination when their lists and their items
    agree in everything but the identity of the elements: the pages, the
    tags, classes and attributes, how the elements hang in each other, and
    the listeners bound to them. *)

Definition unparent (el : Element) : Element :=
  mkElement (tag el) (classes el) (attrs el) None.

(** A listener as seen from the element it is bound to. *)
Inductive HandlerView :=
  | OnSelf (add : bool) (c : ClassName)
  | Other (h : Handler).

Definition handler_view (x : elem) (h : Handler) : HandlerView :=
  match h with
  | AddClass y c => if decide (y = x) then OnSelf true c else Other h
  | RemoveClass y c => if decide (y = x) then OnSelf false c else Other h
  | _ => Other h
  end.

Definition listeners_view (s : State) (x : elem) : list (string * HandlerView) :=
  (λ l, (l.1.2, handler_view x l.2)) <$> filter (λ l, l.1.1 = x) (listeners s).

Record ItemView := mkItemView {
  view_page : Z;
  view_li : option Element;
  view_li_in_list : bool;
  view_button : option Element;
  view_button_in_li : bool;
  view_listeners : list (string * HandlerView);
}.

Definition item_view (s : State) (it : PaginationItem) : ItemView :=
  mkItemView (page it)
    (unparent <$> document s !! li it)
    (bool_decide (parent <$> document s !! li it = Some (Own <$> list_ s)))
    (unparent <$> document s !! button it)
    (bool_decide (parent <$> document s !! button it = Some (Some (Own (li it)))))
    (listeners_view s (button it)).

Definition list_view (s : State) :
    option (Element * option Node * list (string * HandlerView)) :=
  l ← list_ s;
  el ← document s !! l;
  Some (unparent el, parent el, listeners_view s l).

Definition view (s : State) := (list_view s, item_view s <$> items s).

(** What [update] makes of the button of page [i]. *)
Definition mark (e : Env) (i : Z) (el : Element) : Element :=
  let el := if decide (toPage e (getIndex e true) = i) then deactivate el else el in
  if decide (toPage e (getIndex e false) = i) then activate el else el.

(** The pagination [init] leaves. *)
Definition init_item_view (e : Env) (i : Z) : ItemView :=
  mkItemView i (Some (unparent (li_el 0))) true
    (Some (mark e i (unparent (button_el e 0 i)))) true
    [("click", Other (OnClick i)); ("keydown", Other (OnKeydown i))].

Definition init_view (e : Env) :=
  if truthy (pagination e) && isEnough e then
    match iterations (max e) with
    | Some n =>
        (Some (unparent (ul_el e), Some (parent_of e),
               [("focusin", OnSelf true CLASS_FOCUS);
                ("focusout", OnSelf false CLASS_FOCUS)]),
         init_item_view e <$> (Z.of_nat <$> seq 0 n))
    | None => (None, [])
    end
  else (None, []).

(** ** A carousel of three slides, one per page *)

Definition example_env (prev curr : Z) : Env :=
  mkEnv PaginationOn 1 "splide__pagination" "splide__pagination__page"
    "Select a slide to show" "Go to page %s" "Go to slide %s"
    3 curr true (λ i, ["slide0" +:+ pretty (i + 1)]) false false
    (λ p, if p then prev else curr) (λ i, i) (λ k, k) key (λ t n, t +:+ pretty n).

(** The state after [mount()] with the first slide current. *)
Definition example_state : State := default initial (mount (example_env 0 0) initial).

(** The state after a first [init()]. *)
Definition example_init : State := default initial (init (example_env 0 0) initial).

(** * Properties *)

(** ** What [update] does to the document *)

Lemma update_lookup e s x :
  document (update e s) !! x =
  touch (curr_item e s) activate x <$> (touch (prev_item e s) deactivate x <$> document s !! x).
Proof.
  unfold update, curr_item, prev_item.
  destruct (getAt e s (getIndex e true)) as [p|],
           (getAt e s (getIndex e false)) as [c|]; simpl;
    rewrite ?lookup_alter; destruct (document s !! x) as [el|] eqn:E; simpl;
    repeat case_decide; simplify_eq; rewrite ?E; try done.
  all: match goal with H : button _ = button _ |- _ => rewrite H, E; done end.
Qed.

Lemma update_items e s : items (update e s) = items s.
Proof.
  unfold update.
  by destruct (getAt e s (getIndex e true)), (getAt e s (getIndex e false)).
Qed.

Lemma update_list e s : list_ (update e s) = list_ s.
Proof.
  unfold update.
  by destruct (getAt e s (getIndex e true)), (getAt e s (getIndex e false)).
Qed.

Lemma update_next e s : next (update e s) = next s.
Proof.
  unfold update.
  by destruct (getAt e s (getIndex e true)), (getAt e s (getIndex e false)).
Qed.

Lemma update_listeners e s : listeners (update e s) = listeners s.
Proof.
  unfold update.
  by destruct (getAt e s (getIndex e true)), (getAt e s (getIndex e false)).
Qed.

Lemma update_handlers e s : handlers (update e s) = handlers s.
Proof.
  unfold update.
  by destruct (getAt e s (getIndex e true)), (getAt e s (getIndex e false)).
Qed.

Lemma update_calls e s :
  calls (update e s) =
  calls s ++ [Emit EVENT_PAGINATION_UPDATED (list_ s) (items s) [prev_item e s; curr_item e s]].
Proof.
  unfold update, prev_item, curr_item.
  by destruct (getAt e s (getIndex e true)), (getAt e s (getIndex e false)).
Qed.

Lemma filter_active_add (cs : list ClassName) :
  filter (λ c, c ≠ CLASS_ACTIVE) (cs ++ [CLASS_ACTIVE]) = filter (λ c, c ≠ CLASS_ACTIVE) cs.
Proof.
  rewrite filter_app, filter_cons_False, filter_nil by (intros H; by apply H).
  apply app_nil_r.
Qed.

Lemma filter_active_remove (cs : list ClassName) :
  filter (λ c, c ≠ CLASS_ACTIVE) (filter (λ c, c ≠ CLASS_ACTIVE) cs) =
  filter (λ c, c ≠ CLASS_ACTIVE) cs.
Proof. rewrite list_filter_filter. apply list_filter_iff. tauto. Qed.

Lemma activate_other_classes el : other_classes (activate el) = other_classes el.
Proof.
  unfold other_classes, activate; simpl.
  case_decide; [done|]. apply filter_active_add.
Qed.

Lemma deactivate_other_classes el : other_classes (deactivate el) = other_classes el.
Proof. apply filter_active_remove. Qed.

Lemma activate_attrs el a :
  a ≠ ARIA_SELECTED → a ≠ TAB_INDEX → attrs (activate el) !! a = attrs el !! a.
Proof. intros. unfold activate; simpl. by rewrite !lookup_insert_ne. Qed.

Lemma deactivate_attrs el a :
  a ≠ ARIA_SELECTED → a ≠ TAB_INDEX → attrs (deactivate el) !! a = attrs el !! a.
Proof.
  intros. unfold deactivate; simpl.
  by rewrite lookup_insert_ne, lookup_delete_ne.
Qed.

Lemma activate_is_active el : is_active (activate el).
Proof.
  unfold is_active, activate; simpl. split_and!.
  - case_decide; [done|]. apply elem_of_app; right. by apply list_elem_of_singleton.
  - by rewrite lookup_insert_ne, lookup_insert_eq.
  - by rewrite lookup_insert_eq.
Qed.

Lemma deactivate_is_inactive el : is_inactive (deactivate el).
Proof.
  unfold is_inactive, deactivate; simpl. split_and!.
  - rewrite list_elem_of_filter. tauto.
  - by rewrite lookup_insert_ne, lookup_delete_eq.
  - by rewrite lookup_insert_eq.
Qed.

Lemma active_not_inactive el : is_active el → ¬ is_inactive el.
Proof. intros [H _] [H' _]. done. Qed.

(** ** [createPagination], turn by turn *)

Lemma createItem_eq e l i s : createItem e l i s = with_item e l i s.
Proof.
  destruct s as [its lst doc nxt ls hs cs].
  cbv beta iota zeta delta [createItem with_item create bind setAttribute
    set_document set_listeners set_items
    items list_ document next listeners handlers calls].
  f_equal.
  - repeat (rewrite alter_insert_eq || rewrite alter_insert_ne by lia).
    reflexivity.
  - by rewrite <- app_assoc.
Qed.

Lemma createPagination_eq e s :
  createPagination e s =
  n ← iterations (max e); Some (createItems e (next s) n 0 (with_list e s)).
Proof.
  destruct s as [its lst doc nxt ls hs cs].
  cbv beta iota zeta delta [createPagination with_list create bind setAttribute
    set_document set_listeners set_list
    items list_ document next listeners handlers calls].
  destruct (iterations (max e)); [|done].
  cbn [mbind option_bind]. do 2 f_equal. f_equal.
  - rewrite !alter_insert_eq. reflexivity.
  - by rewrite <- app_assoc.
Qed.

(** ** [destroy] in closed form *)

Lemma foldl_unbind its s :
  foldl (λ s item, unbind (button item) ["click"; "keydown"; "focus"] s) s its =
  mkState (items s) (list_ s) (document s) (next s) (unbound its (listeners s))
    (handlers s) (calls s).
Proof.
  revert s. induction its as [|it its IH]; intros s; simpl.
  - by destruct s.
  - rewrite IH. reflexivity.
Qed.

Lemma destroy_some s l :
  list_ s = Some l →
  destroy s =
  mkState [] None (alter El.remove l (document s)) (next s)
    (unbound (items s) (listeners s)) (handlers s) (calls s).
Proof.
  intros Hl. unfold destroy. rewrite Hl. rewrite foldl_unbind. reflexivity.
Qed.

Lemma destroy_none s : list_ s = None → destroy s = s.
Proof. intros Hl. unfold destroy. by rewrite Hl. Qed.

Lemma elem_of_unbound its ls l :
  l ∈ unbound its ls ↔
  l ∈ ls ∧ ∀ it, it ∈ its → ¬ (l.1.1 = button it ∧ l.1.2 ∈ ["click"; "keydown"; "focus"]).
Proof.
  revert ls. induction its as [|it its IH]; intros ls; simpl.
  - split; [|tauto]. intros H; split; [done|]. intros it Hit. by apply elem_of_nil in Hit.
  - unfold unbound in *; simpl. rewrite IH, list_elem_of_filter. split.
    + intros [[H1 H2] H3]. split; [done|]. intros it' Hit'.
      apply elem_of_cons in Hit' as [->|Hit']; auto.
    + intros [H1 H2]. split_and!; [|done|].
      * apply H2. by left.
      * intros it' Hit'. apply H2. by right.
Qed.

Lemma destroy_items s : wf s → items (destroy s) = [].
Proof.
  intros Hwf. destruct (list_ s) as [l|] eqn:Hl.
  - by rewrite (destroy_some s l).
  - rewrite destroy_none by done. by apply wf_no_list.
Qed.

Lemma destroy_list s : list_ (destroy s) = None.
Proof.
  destruct (list_ s) as [l|] eqn:Hl.
  - by rewrite (destroy_some s l).
  - by rewrite destroy_none.
Qed.

Lemma destroy_next s : next (destroy s) = next s.
Proof.
  destruct (list_ s) as [l|] eqn:Hl.
  - by rewrite (destroy_some s l).
  - by rewrite destroy_none.
Qed.

(** ** The invariant holds in every state of the component *)

Lemma wf_initial : wf initial.
Proof.
  split; simpl; try done.
  - constructor.
  - intros it Hit. by apply elem_of_nil in Hit.
  - intros it Hit. by apply elem_of_nil in Hit.
  - intros x [el Hx]. by rewrite lookup_empty in Hx.
  - intros l Hl. by apply elem_of_nil in Hl.
Qed.

(** A state that differs only in classes, attributes, handlers and calls. *)
Lemma wf_shape s s' :
  wf s →
  items s' = items s → list_ s' = list_ s → next s' = next s →
  listeners s' = listeners s →
  (∀ x, shape <$> document s' !! x = shape <$> document s !! x) →
  wf s'.
Proof.
  intros [] Hi Hl Hn Hls Hd.
  assert (Hdoc : ∀ x el', document s' !! x = Some el' →
            ∃ el, document s !! x = Some el ∧ tag el = tag el' ∧ parent el = parent el').
  { intros x el' Hx. specialize (Hd x). rewrite Hx in Hd.
    destruct (document s !! x) as [el|]; [|done].
    exists el. by simplify_eq/=. }
  assert (Hdoc' : ∀ x el, document s !! x = Some el →
            ∃ el', document s' !! x = Some el' ∧ tag el' = tag el ∧ parent el' = parent el).
  { intros x el Hx. specialize (Hd x). rewrite Hx in Hd.
    destruct (document s' !! x) as [el'|]; [|done].
    exists el'. by simplify_eq/=. }
  split; rewrite ?Hi, ?Hl, ?Hn, ?Hls; try done.
  - intros l Hl'. destruct (wf_list0 l Hl') as (el & Hel & Ht).
    destruct (Hdoc' _ _ Hel) as (el' & ? & ? & ?). exists el'. split; congruence.
  - intros it Hit. destruct (wf_button0 it Hit) as (el & Hel & Ht).
    destruct (Hdoc' _ _ Hel) as (el' & ? & ? & ?). exists el'. split; congruence.
  - intros it Hit. destruct (wf_li0 it Hit) as (el & Hel & Ht).
    destruct (Hdoc' _ _ Hel) as (el' & ? & ? & ?). exists el'. split; congruence.
  - intros x [el' Hx]. destruct (Hdoc _ _ Hx) as (el & ? & _). eauto.
  - intros x el' y Hx Hp. destruct (Hdoc _ _ Hx) as (el & ? & ? & ?).
    eapply wf_parents0; [done|congruence].
  - intros x el' Hx Ht Hp. destruct (Hdoc _ _ Hx) as (el & ? & ? & ?).
    eapply wf_attached0; [done|congruence|congruence].
  - intros l x el' Hl' Hx Hp. destruct (Hdoc _ _ Hx) as (el & ? & ? & ?).
    eapply wf_children0; [done|done|congruence].
Qed.

Lemma touch_shape o f x el :
  (∀ el, shape (f el) = shape el) → shape (touch o f x el) = shape el.
Proof. intros Hf. unfold touch. destruct o; [case_decide|]; auto. Qed.

Lemma wf_update e s : wf s → wf (update e s).
Proof.
  intros Hwf. apply (wf_shape s); auto using update_items, update_list,
    update_next, update_listeners.
  intros x. rewrite update_lookup. destruct (document s !! x) as [el|]; [|done]; simpl.
  f_equal. by rewrite !touch_shape.
Qed.

Lemma wf_destroy s : wf s → wf (destroy s).
Proof.
  intros Hwf. destruct (list_ s) as [l|] eqn:Hl; [|by rewrite destroy_none].
  rewrite (destroy_some s l Hl). destruct Hwf.
  split; simpl; try done.
  - constructor.
  - intros it Hit. by apply elem_of_nil in Hit.
  - intros it Hit. by apply elem_of_nil in Hit.
  - intros x Hx. apply wf_next_document0.
    by rewrite lookup_alter_is_Some in Hx.
  - intros l' Hl'. apply elem_of_unbound in Hl' as [Hl' _]. auto.
  - intros x el y Hx Hp. rewrite lookup_alter in Hx. case_decide; simplify_eq.
    + destruct (document s !! x); simplify_eq/=.
    + eauto.
  - intros x el Hx Ht Hp. exfalso. rewrite lookup_alter in Hx. case_decide; simplify_eq.
    + destruct (document s !! x); simplify_eq/=. by destruct Hp.
    + specialize (wf_attached0 x el Hx Ht Hp). congruence.
Qed.

Lemma filter_none {A} (P : A → Prop) `{!∀ x, Decision (P x)} (l : list A) :
  (∀ x, x ∈ l → ¬ P x) → filter P l = [].
Proof.
  induction l as [|x l IH]; intros Hn; [done|].
  rewrite filter_cons_False by (apply Hn; by left).
  apply IH. intros y Hy. apply Hn. by right.
Qed.

Lemma parent_of_not_own e y : parent_of e ≠ Own y.
Proof. unfold parent_of. destruct (pagination e), (has_slider e); done. Qed.

Lemma wf_with_list e s : wf s → items s = [] → list_ s = None → wf (with_list e s).
Proof.
  intros [] Hi Hl. split; unfold with_list; simpl; rewrite ?Hi; try done.
  - intros l [= <-]. exists (ul_el e). by rewrite lookup_insert_eq.
  - constructor.
  - intros it Hit. by apply elem_of_nil in Hit.
  - intros it Hit. by apply elem_of_nil in Hit.
  - intros l [= <-]. rewrite filter_app, filter_none.
    2:{ intros x Hx Heq. apply wf_next_listeners0 in Hx. simpl in Heq. lia. }
    by rewrite !filter_cons_True, filter_nil.
  - intros x Hx. rewrite lookup_insert_is_Some in Hx.
    destruct Hx as [->|[_ Hx]]; [lia|]. apply wf_next_document0 in Hx. lia.
  - intros l Hl'. apply elem_of_app in Hl' as [Hl'|Hl'].
    + apply wf_next_listeners0 in Hl'. lia.
    + repeat (apply elem_of_cons in Hl' as [->|Hl']; [simpl; lia|]).
      by apply elem_of_nil in Hl'.
  - intros x el y Hx Hp. rewrite lookup_insert in Hx. case_decide; simplify_eq.
    + simpl in Hp. injection Hp as Hp. by apply parent_of_not_own in Hp.
    + specialize (wf_parents0 _ _ _ Hx Hp). lia.
  - intros x el Hx Ht Hp. rewrite lookup_insert in Hx. case_decide; simplify_eq; [done|].
    specialize (wf_attached0 _ _ Hx Ht Hp). congruence.
  - intros l x el [= <-] Hx Hp. exfalso.
    rewrite lookup_insert in Hx. case_decide; simplify_eq.
    + simpl in Hp. injection Hp as Hp. by apply parent_of_not_own in Hp.
    + specialize (wf_parents0 _ _ _ Hx Hp). lia.
Qed.

Lemma wf_with_item e l i s :
  wf s → list_ s = Some l → i = Z.of_nat (length (items s)) →
  wf (with_item e l i s).
Proof.
  intros Hwf Hl ->. pose proof Hwf as [].
  assert (Hold : ∀ it, it ∈ items s → (button it < next s)%nat ∧ (li it < next s)%nat).
  { intros it Hit. split; apply wf_next_document0.
    - destruct (wf_button0 it Hit) as (? & -> & _). eauto.
    - destruct (wf_li0 it Hit) as (? & -> & _). eauto. }
  assert (Hlk : (l < next s)%nat).
  { destruct (wf_list0 l Hl) as (? & Hx & _). apply wf_next_document0. eauto. }
  split; unfold with_item; simpl.
  - congruence.
  - intros l' Hl'. rewrite Hl' in Hl. simplify_eq.
    rewrite !lookup_insert_ne by lia. eauto.
  - rewrite fmap_app. apply NoDup_app. split_and!; [done| |apply NoDup_singleton].
    intros x Hx Hx'. apply list_elem_of_fmap in Hx as (it & -> & Hit).
    apply list_elem_of_singleton in Hx'. simpl in Hx'. apply Hold in Hit. lia.
  - intros it Hit. apply elem_of_app in Hit as [Hit|Hit].
    + destruct (Hold it Hit). rewrite !lookup_insert_ne by lia. eauto.
    + apply list_elem_of_singleton in Hit as ->. simpl.
      rewrite lookup_insert_eq. eauto.
  - intros it Hit. apply elem_of_app in Hit as [Hit|Hit].
    + destruct (Hold it Hit). rewrite !lookup_insert_ne by lia. eauto.
    + apply list_elem_of_singleton in Hit as ->. simpl.
      rewrite lookup_insert_ne, lookup_insert_eq by lia. eauto.
  - intros j it Hj. apply lookup_app_Some in Hj as [Hj|[Hlen Hj]]; [eauto|].
    apply list_lookup_singleton_Some in Hj as [Hj <-]. simpl. lia.
  - intros j it Hj. rewrite filter_app.
    apply lookup_app_Some in Hj as [Hj|[Hlen Hj]].
    + rewrite (wf_listeners0 j it Hj).
      rewrite (filter_none _ [_; _]); [done|].
      intros x Hx. apply list_elem_of_lookup_2, Hold in Hj.
      repeat (apply elem_of_cons in Hx as [->|Hx]; [simpl; lia|]).
      by apply elem_of_nil in Hx.
    + apply list_lookup_singleton_Some in Hj as [Hj <-]. simpl.
      rewrite filter_none.
      2:{ intros x Hx Heq. apply wf_next_listeners0 in Hx. simpl in Heq. lia. }
      rewrite !filter_cons_True, filter_nil by done. simpl.
      replace (Z.of_nat j) with (Z.of_nat (length (items s))) by lia. done.
  - intros l' Hl'. rewrite Hl' in Hl. simplify_eq.
    rewrite filter_app, (wf_list_listeners0 l Hl').
    rewrite (filter_none _ [_; _]); [done|].
    intros x Hx.
    repeat (apply elem_of_cons in Hx as [->|Hx]; [simpl; lia|]).
    by apply elem_of_nil in Hx.
  - intros x Hx. rewrite !lookup_insert_is_Some in Hx.
    destruct Hx as [->|[_ [->|[_ Hx]]]]; [lia..|]. apply wf_next_document0 in Hx. lia.
  - intros l' Hl'. apply elem_of_app in Hl' as [Hl'|Hl'].
    + apply wf_next_listeners0 in Hl'. lia.
    + repeat (apply elem_of_cons in Hl' as [->|Hl']; [simpl; lia|]).
      by apply elem_of_nil in Hl'.
  - intros x el y Hx Hp. rewrite !lookup_insert in Hx.
    repeat case_decide; simplify_eq; simpl in Hp; simplify_eq; try lia.
    specialize (wf_parents0 _ _ _ Hx Hp). lia.
  - intros x el Hx Ht Hp. rewrite !lookup_insert in Hx.
    repeat case_decide; simplify_eq; eauto.
  - intros l' x el Hl' Hx Hp. rewrite Hl' in Hl. simplify_eq.
    rewrite !lookup_insert in Hx. repeat case_decide; simplify_eq.
    + simpl in Hp. simplify_eq. lia.
    + eexists. split; [apply elem_of_app; right; by apply list_elem_of_singleton|done].
    + destruct (wf_children0 _ _ _ Hl' Hx Hp) as (it & Hit & Hli).
      exists it. split; [apply elem_of_app; by left|done].
Qed.

Lemma createItems_list e l n i s : list_ (createItems e l n i s) = list_ s.
Proof.
  revert i s. induction n as [|n IH]; intros i s; simpl; [done|].
  by rewrite IH, createItem_eq.
Qed.

Lemma createItems_length e l n i s :
  length (items (createItems e l n i s)) = (length (items s) + n)%nat.
Proof.
  revert i s. induction n as [|n IH]; intros i s; simpl; [lia|].
  rewrite IH, createItem_eq. simpl. rewrite length_app. simpl. lia.
Qed.

Lemma createItems_calls e l n i s : calls (createItems e l n i s) = calls s.
Proof.
  revert i s. induction n as [|n IH]; intros i s; simpl; [done|].
  by rewrite IH, createItem_eq.
Qed.

Lemma createItems_handlers e l n i s : handlers (createItems e l n i s) = handlers s.
Proof.
  revert i s. induction n as [|n IH]; intros i s; simpl; [done|].
  by rewrite IH, createItem_eq.
Qed.

Lemma wf_createItems e l n i s :
  wf s → list_ s = Some l → i = Z.of_nat (length (items s)) →
  wf (createItems e l n i s).
Proof.
  revert i s. induction n as [|n IH]; intros i s Hwf Hl Hi; simpl; [done|].
  rewrite createItem_eq. apply IH.
  - by apply wf_with_item.
  - done.
  - simpl. rewrite length_app. simpl. lia.
Qed.

Lemma wf_emit ev args s : wf s → wf (emit ev args s).
Proof. intros Hwf. by apply (wf_shape s). Qed.

Lemma wf_on evs h s : wf s → wf (on evs h s).
Proof. intros Hwf. by apply (wf_shape s). Qed.

Lemma wf_createPagination e s s' :
  wf s → items s = [] → list_ s = None → createPagination e s = Some s' → wf s'.
Proof.
  intros Hwf Hi Hl. rewrite createPagination_eq.
  destruct (iterations (max e)) as [n|]; [|done]. intros [= <-].
  apply wf_createItems.
  - by apply wf_with_list.
  - done.
  - simpl. by rewrite Hi.
Qed.

Lemma wf_init e s s' : wf s → init e s = Some s' → wf s'.
Proof.
  intros Hwf. unfold init.
  destruct (truthy (pagination e) && isEnough e).
  - destruct (createPagination e (destroy s)) as [s1|] eqn:Hc; [|done].
    simpl. intros [= <-]. apply wf_update, wf_emit.
    eapply wf_createPagination; [by apply wf_destroy| | |done].
    + by apply destroy_items.
    + apply destroy_list.
  - intros [= <-]. by apply wf_destroy.
Qed.

Lemma wf_mount e s s' : wf s → mount e s = Some s' → wf s'.
Proof.
  intros Hwf. unfold mount.
  destruct (init e s) as [s1|] eqn:Hi; [|done]. simpl. intros [= <-].
  do 2 apply wf_on. by eapply wf_init.
Qed.

Lemma reachable_wf P s : reachable P s → wf s.
Proof.
  induction 1 as [|s s' _ IH Hstep]; [apply wf_initial|].
  destruct Hstep; eauto using wf_mount, wf_init, wf_update, wf_destroy.
Qed.

Lemma example_state_mount : mount (example_env 0 0) initial = Some example_state.
Proof. vm_compute. reflexivity. Qed.

Lemma example_state_reachable P : reachable P example_state.
Proof.
  eapply reachable_step; [apply reachable_initial|].
  eapply step_mount, example_state_mount.
Qed.

Lemma example_state_wf : wf example_state.
Proof. apply (reachable_wf any_time), example_state_reachable. Qed.

(** ** Items and their buttons *)

Lemma getAt_Some e s index it :
  getAt e s index = Some it ↔
  0 ≤ toPage e index ∧ items s !! Z.to_nat (toPage e index) = Some it.
Proof.
  unfold getAt, js_index. case_decide as Hz; [tauto|].
  split; [done|]. by intros [? _].
Qed.

Lemma getAt_elem e s index it : getAt e s index = Some it → it ∈ items s.
Proof. rewrite getAt_Some. intros [_ H]. by eapply list_elem_of_lookup_2. Qed.

Lemma button_inj s it it' :
  wf s → it ∈ items s → it' ∈ items s → button it = button it' → it = it'.
Proof.
  intros Hwf Hit Hit' Hb.
  apply list_elem_of_lookup_1 in Hit as [i Hi], Hit' as [j Hj].
  assert (i = j) as ->; [|congruence].
  apply (NoDup_lookup (button <$> items s) i j (button it)); [by apply wf_buttons|..].
  - by rewrite list_lookup_fmap, Hi.
  - by rewrite list_lookup_fmap, Hj, Hb.
Qed.

(** C8: getAt(index) is items[Controller.toPage(index)]: the item at that
    page when the page is an index of items, and undefined, never an error,
    when the page lies outside [0, items.length); with no pagination created
    (items empty) it is undefined for every index. *)
Theorem getAt_never_fails e s index :
  getAt e s index = js_index (items s) (Int (toPage e index))
  ∧ (0 ≤ toPage e index → getAt e s index = items s !! Z.to_nat (toPage e index))
  ∧ (getAt e s index = None ↔
     toPage e index < 0 ∨ Z.of_nat (length (items s)) ≤ toPage e index)
  ∧ (items s = [] → getAt e s index = None).
Proof.
  unfold getAt, js_index. split_and!.
  - done.
  - intros H. by case_decide.
  - case_decide.
    + rewrite lookup_ge_None. lia.
    + split; [lia|done].
  - intros ->. case_decide; [|done]. apply lookup_nil.
Qed.

Lemma getAt_never_fails_witness :
  getAt (example_env 0 0) initial 5 = None
  ∧ getAt (example_env 0 5) example_state (-1) = None
  ∧ getAt (example_env 0 5) example_state 3 = None.
Proof.
  split_and!.
  - by apply (getAt_never_fails (example_env 0 0) initial 5).
  - destruct (getAt_never_fails (example_env 0 5) example_state (-1)) as (_ & _ & H & _).
    apply H. left. simpl. lia.
  - destruct (getAt_never_fails (example_env 0 5) example_state 3) as (_ & _ & H & _).
    apply H. right. vm_compute. by intros [=].
Defined.

(** C1: after update(), the button of the item at the page of getIndex(), if
    there is one, has the active class, aria-selected true and tabindex set
    to the empty string; the button of the item at the page of
    getIndex(true), if there is one and it is not the current item, has no
    active class, no aria-selected and tabindex -1. *)
Theorem update_marks e s :
  wf s →
  (∀ curr, curr_item e s = Some curr →
     ∃ el, document (update e s) !! button curr = Some el ∧ is_active el)
  ∧ (∀ prev, prev_item e s = Some prev → curr_item e s ≠ Some prev →
     ∃ el, document (update e s) !! button prev = Some el ∧ is_inactive el).
Proof.
  intros Hwf. split.
  - intros c Hc. pose proof (getAt_elem _ _ _ _ Hc) as Hin.
    destruct (wf_button s Hwf c Hin) as (el & Hel & _).
    rewrite update_lookup, Hel, Hc. simpl. eexists. split; [done|].
    rewrite decide_True by done. apply activate_is_active.
  - intros p Hp Hne. pose proof (getAt_elem _ _ _ _ Hp) as Hin.
    destruct (wf_button s Hwf p Hin) as (el & Hel & _).
    rewrite update_lookup, Hel, Hp. simpl. eexists. split; [done|].
    rewrite decide_True by done.
    destruct (curr_item e s) as [c|] eqn:Hc; simpl; [|apply deactivate_is_inactive].
    case_decide as Hb; [|apply deactivate_is_inactive].
    destruct Hne. f_equal. apply (button_inj s); eauto using getAt_elem.
Qed.

Lemma update_marks_witness :
  (∀ curr, curr_item (example_env 0 1) example_state = Some curr →
     ∃ el, document (update (example_env 0 1) example_state) !! button curr = Some el
           ∧ is_active el)
  ∧ (∀ prev, prev_item (example_env 0 1) example_state = Some prev →
     curr_item (example_env 0 1) example_state ≠ Some prev →
     ∃ el, document (update (example_env 0 1) example_state) !! button prev = Some el
           ∧ is_inactive el).
Proof. apply (update_marks (example_env 0 1) example_state), example_state_wf. Defined.

Lemma update_same_but_state e s x :
  option_Forall2 same_but_state (document s !! x) (document (update e s) !! x).
Proof.
  rewrite update_lookup.
  destruct (document s !! x) as [el|]; simpl; constructor.
  unfold same_but_state, touch.
  destruct (prev_item e s) as [p|], (curr_item e s) as [c|];
    repeat case_decide;
    rewrite ?activate_other_classes, ?deactivate_other_classes;
    split_and!; try done; intros a Ha Hb;
    rewrite ?activate_attrs, ?deactivate_attrs; done.
Qed.

(** C6: update() changes only the active class, aria-selected and tabindex of
    the buttons of the previous and the current item and emits
    pagination:updated once; the items array, the list, the listeners and
    every other element stay as they were, and so do the tag, the parent,
    the other classes and the other attributes of the two buttons. *)
Theorem update_frame e s :
  items (update e s) = items s
  ∧ list_ (update e s) = list_ s
  ∧ listeners (update e s) = listeners s
  ∧ handlers (update e s) = handlers s
  ∧ calls (update e s) =
    calls s ++ [Emit EVENT_PAGINATION_UPDATED (list_ s) (items s)
                  [prev_item e s; curr_item e s]]
  ∧ ∀ x,
      option_Forall2 same_but_state (document s !! x) (document (update e s) !! x)
      ∧ ((∀ it, prev_item e s = Some it ∨ curr_item e s = Some it → button it ≠ x) →
         document (update e s) !! x = document s !! x).
Proof.
  split_and!; auto using update_items, update_list, update_listeners,
    update_handlers, update_calls.
  intros x. split; [apply update_same_but_state|].
  rewrite update_lookup.
  - intros Hx. destruct (document s !! x) as [el|]; simpl; [|done].
    f_equal. unfold touch.
    destruct (prev_item e s) as [p|], (curr_item e s) as [c|];
      repeat case_decide; try done; exfalso; naive_solver.
Qed.

(** C10: every update() appends exactly one pagination:updated emission with
    the list, the items, the previous and the current item (undefined when
    there is none), and with neither item it leaves the document as it was;
    so on a carousel mounted with pagination off, a move or scrolled event
    yields this one emission and no change of the document. *)
Theorem update_emits_once :
  (∀ e s,
     calls (update e s) =
     calls s ++ [Emit EVENT_PAGINATION_UPDATED (list_ s) (items s)
                   [getAt e s (getIndex e true); getAt e s (getIndex e false)]]
     ∧ (items s = [] → document (update e s) = document s))
  ∧ (∀ e e' ev,
     truthy (pagination e) && isEnough e = false →
     ev = EVENT_MOVE ∨ ev = EVENT_SCROLLED →
     ∃ s s',
       mount e initial = Some s ∧ items s = [] ∧ list_ s = None
       ∧ fire e' ev s = Some s'
       ∧ calls s' = calls s ++ [Emit EVENT_PAGINATION_UPDATED None [] [None; None]]
       ∧ document s' = document s ∧ items s' = [] ∧ list_ s' = None).
Proof.
  split.
  - intros e s. split; [apply update_calls|].
    intros Hi. apply map_eq. intros x. rewrite update_lookup.
    unfold curr_item, prev_item, getAt, js_index. rewrite Hi.
    repeat case_decide; rewrite ?lookup_nil; simpl; by destruct (document s !! x).
  - intros e e' ev Hoff Hev. unfold mount, init. rewrite Hoff. simpl.
    eexists _, _. split_and!; [done..| | | | |].
    + unfold fire. destruct Hev as [-> | ->]; simpl; reflexivity.
    + rewrite update_calls. unfold prev_item, curr_item, getAt, js_index; simpl.
      by repeat case_decide.
    + apply map_eq. intros x. rewrite update_lookup. simpl.
      unfold curr_item, prev_item, getAt, js_index; simpl.
      repeat case_decide; by rewrite ?lookup_empty.
    + by rewrite update_items.
    + by rewrite update_list.
Qed.

Lemma update_emits_once_witness :
  ∃ s s',
    mount (example_env 0 0) initial = Some s ∧ fire (example_env 0 1) EVENT_MOVE s = Some s'
    ∧ calls s' =
      calls s ++ [Emit EVENT_PAGINATION_UPDATED (list_ s) (items s)
                    [getAt (example_env 0 1) s 0; getAt (example_env 0 1) s 1]].
Proof.
  exists example_state, (update (example_env 0 1) example_state). split_and!.
  - apply example_state_mount.
  - vm_compute. reflexivity.
  - apply (proj1 update_emits_once (example_env 0 1) example_state).
Defined.

(** ** Listeners *)

Lemma listeners_of_filter x type ls :
  listeners_of x type ls =
  snd <$> filter (λ l, l.1.2 = type) (filter (λ l, l.1.1 = x) ls).
Proof.
  unfold listeners_of. f_equal. rewrite list_filter_filter.
  apply list_filter_iff. intros l. simpl. tauto.
Qed.

Lemma listeners_of_button_click s i it :
  wf s → items s !! i = Some it →
  listeners_of (button it) "click" (listeners s) = [OnClick (Z.of_nat i)].
Proof.
  intros Hwf Hi. rewrite listeners_of_filter, (wf_listeners s Hwf i it Hi).
  rewrite filter_cons_True by done. rewrite filter_cons_False by done.
  by rewrite filter_nil.
Qed.

Lemma listeners_of_button_keydown s i it :
  wf s → items s !! i = Some it →
  listeners_of (button it) "keydown" (listeners s) = [OnKeydown (Z.of_nat i)].
Proof.
  intros Hwf Hi. rewrite listeners_of_filter, (wf_listeners s Hwf i it Hi).
  rewrite filter_cons_False by done. rewrite filter_cons_True by done.
  by rewrite filter_nil.
Qed.

(** C3: a click on the button of the i-th item of a created pagination calls
    Controller.go once, with the control '>i' and true, and changes nothing
    else: the state after the click is the state before it with this one
    call added. *)
Theorem click_goes e s ev i it :
  wf s → items s !! i = Some it →
  page it = Z.of_nat i
  ∧ dispatchEvent e (button it) "click" ev s =
    call (Go (">" +:+ pretty (Z.of_nat i)) (Some true)) s.
Proof.
  intros Hwf Hi. split; [by apply (wf_page s)|].
  unfold dispatchEvent. by rewrite (listeners_of_button_click s i it).
Qed.

Lemma click_goes_witness :
  dispatchEvent (example_env 0 0) 4%nat "click" (mkKeyboardEvent "") example_state =
  call (Go ">1" (Some true)) example_state.
Proof.
  apply (click_goes (example_env 0 0) example_state (mkKeyboardEvent "") 1
           (mkItem 3 4 1)).
  - apply example_state_wf.
  - vm_compute. reflexivity.
Defined.

(** C9: destroy() resets the component: afterwards items is empty and list
    is null, no listener is left on the button of any former item, the former
    list hangs under no parent, and a second destroy() changes nothing. *)
Theorem destroy_resets s :
  wf s →
  items (destroy s) = []
  ∧ list_ (destroy s) = None
  ∧ (∀ it l, it ∈ items s → l ∈ listeners (destroy s) → l.1.1 ≠ button it)
  ∧ (∀ l, list_ s = Some l →
       ∃ el, document (destroy s) !! l = Some el ∧ parent el = None)
  ∧ destroy (destroy s) = destroy s.
Proof.
  intros Hwf. split_and!.
  - by apply destroy_items.
  - apply destroy_list.
  - intros it l Hit Hl Hb. destruct (list_ s) as [l0|] eqn:Hl0.
    + rewrite (destroy_some s l0 Hl0) in Hl. simpl in Hl.
      apply elem_of_unbound in Hl as [Hl Hnot].
      apply list_elem_of_lookup_1 in Hit as Hi. destruct Hi as [i Hi].
      assert (Hin : l ∈ filter (λ l, l.1.1 = button it) (listeners s))
        by (by apply list_elem_of_filter).
      rewrite (wf_listeners s Hwf i it Hi) in Hin.
      apply (Hnot it Hit). split; [done|].
      apply elem_of_cons in Hin as [->|Hin]; simpl; [by left|].
      apply list_elem_of_singleton in Hin as ->. simpl. right. by left.
    + rewrite (wf_no_list s Hwf Hl0) in Hit. by apply elem_of_nil in Hit.
  - intros l Hl. rewrite (destroy_some s l Hl). simpl.
    destruct (wf_list s Hwf l Hl) as (el & Hel & _).
    rewrite lookup_alter_eq, Hel. simpl. eauto.
  - apply (destroy_none (destroy s)), destroy_list.
Qed.

Lemma destroy_resets_witness :
  items (destroy example_state) = []
  ∧ list_ (destroy example_state) = None
  ∧ (∀ it l, it ∈ items example_state → l ∈ listeners (destroy example_state) →
       l.1.1 ≠ button it)
  ∧ (∀ l, list_ example_state = Some l →
       ∃ el, document (destroy example_state) !! l = Some el ∧ parent el = None)
  ∧ destroy (destroy example_state) = destroy example_state.
Proof. apply (destroy_resets example_state), example_state_wf. Defined.

(** ** What [createPagination] leaves *)

Lemma createItems_old e l n i s x :
  (x < next s)%nat → document (createItems e l n i s) !! x = document s !! x.
Proof.
  revert i s. induction n as [|n IH]; intros i s Hx; simpl; [done|].
  rewrite createItem_eq, IH by (simpl; lia). simpl.
  by rewrite !lookup_insert_ne by lia.
Qed.

Lemma created_with_item e l i s :
  wf s → created e l s → created e l (with_item e l i s).
Proof.
  intros Hwf Hc it Hit. unfold with_item in *; simpl in *.
  apply elem_of_app in Hit as [Hit|Hit].
  - destruct (Hc it Hit) as [Hli Hb].
    assert (li it < next s)%nat by (apply (wf_next_document s Hwf); by rewrite Hli).
    assert (button it < next s)%nat by (apply (wf_next_document s Hwf); by rewrite Hb).
    by rewrite !lookup_insert_ne by lia.
  - apply list_elem_of_singleton in Hit as ->. simpl.
    by rewrite lookup_insert_ne, !lookup_insert_eq by lia.
Qed.

Lemma created_createItems e l n i s :
  wf s → list_ s = Some l → i = Z.of_nat (length (items s)) →
  created e l s → created e l (createItems e l n i s).
Proof.
  revert i s. induction n as [|n IH]; intros i s Hwf Hl Hi Hc; simpl; [done|].
  rewrite createItem_eq. apply IH.
  - by apply wf_with_item.
  - done.
  - simpl. rewrite length_app. simpl. lia.
  - by apply created_with_item.
Qed.

Lemma createPagination_spec e s s' :
  wf s → items s = [] → list_ s = None → createPagination e s = Some s' →
  ∃ n, iterations (max e) = Some n
    ∧ list_ s' = Some (next s)
    ∧ document s' !! next s = Some (ul_el e)
    ∧ length (items s') = n
    ∧ created e (next s) s'
    ∧ wf s'
    ∧ calls s' = calls s
    ∧ handlers s' = handlers s
    ∧ ∀ x, (x < next s)%nat → document s' !! x = document s !! x.
Proof.
  intros Hwf Hi Hl Hc. pose proof (wf_createPagination e s s' Hwf Hi Hl Hc) as Hwf'.
  rewrite createPagination_eq in Hc.
  destruct (iterations (max e)) as [n|]; [|done]. injection Hc as <-.
  pose proof (wf_with_list e s Hwf Hi Hl) as Hwl.
  exists n. split_and!; try done.
  - by rewrite createItems_list.
  - rewrite createItems_old by (simpl; lia). simpl. by rewrite lookup_insert_eq.
  - rewrite createItems_length. simpl. by rewrite Hi.
  - apply created_createItems; try done.
    + simpl. by rewrite Hi.
    + intros it Hit. simpl in Hit. rewrite Hi in Hit. by apply elem_of_nil in Hit.
  - by rewrite createItems_calls.
  - by rewrite createItems_handlers.
  - intros x Hx. rewrite createItems_old by (simpl; lia). simpl.
    by rewrite lookup_insert_ne by lia.
Qed.

Lemma button_el_inactive e li i : is_inactive (button_el e li i).
Proof.
  unfold is_inactive, button_el; simpl. split_and!.
  - intros H. apply list_elem_of_singleton in H. done.
  - by rewrite !lookup_insert_ne, lookup_empty.
  - by rewrite lookup_insert_eq.
Qed.

(** ** Roving tabindex is kept *)

Lemma getAt_page e s index it :
  wf s → it ∈ items s → page it = toPage e index → getAt e s index = Some it.
Proof.
  intros Hwf Hit Hp. apply list_elem_of_lookup_1 in Hit as [i Hi].
  apply getAt_Some. rewrite <- Hp, (wf_page s Hwf i it Hi).
  split; [lia|]. by rewrite Nat2Z.id.
Qed.

Lemma marked_roving s : marked s → roving s.
Proof.
  intros [Hst Hone]. split.
  - intros it it' el el' Hit Hit' Hel Hel' Hs Hs'.
    destruct (Hst it Hit) as (el0 & Hel0 & Hd), (Hst it' Hit') as (el0' & Hel0' & Hd').
    simplify_eq. apply (Hone it it' el el'); try done.
    + destruct Hd as [|(Hc & Ha & _)]; [done|].
      destruct Hs as [|[? Hs]]; [done|congruence].
    + destruct Hd' as [|(Hc & Ha & _)]; [done|].
      destruct Hs' as [|[? Hs']]; [done|congruence].
  - intros it el Hit Hel. destruct (Hst it Hit) as (el0 & Hel0 & Hd). simplify_eq.
    destruct Hd as [(Hc & Ha & Ht)|(Hc & Ha & Ht)].
    + split; [congruence|]. intros Hn. destruct Hn. by left.
    + split; [|done]. intros _ [|[? Hs]]; [done|congruence].
Qed.

Lemma marked_no_items s : items s = [] → marked s.
Proof.
  intros Hi. split.
  - intros it Hit. rewrite Hi in Hit. by apply elem_of_nil in Hit.
  - intros it it' el el' Hit. rewrite Hi in Hit. by apply elem_of_nil in Hit.
Qed.

Lemma marked_update e s : wf s → marked s → synced e s → marked (update e s).
Proof.
  intros Hwf [Hst Hone] Hsync.
  assert (Hact : ∀ it el', it ∈ items s →
            document (update e s) !! button it = Some el' → is_active el' →
            curr_item e s = Some it).
  { intros it el' Hit Hel' Hact'.
    destruct (Hst it Hit) as (el & Hel & Hd).
    rewrite update_lookup, Hel in Hel'. simpl in Hel'. injection Hel' as <-.
    unfold touch in Hact'.
    destruct (curr_item e s) as [c|] eqn:Hc.
    - destruct (decide (button c = button it)) as [Hb|Hb].
      { f_equal. apply (button_inj s); eauto using getAt_elem. }
      exfalso. destruct (prev_item e s) as [p|] eqn:Hp.
      + destruct (decide (button p = button it)) as [Hb'|Hb'].
        { by apply (active_not_inactive _ Hact'), deactivate_is_inactive. }
        destruct (Hsync it el Hit Hel) as [Hpg|Hpg]; [by destruct Hact'|..].
        * apply (getAt_page e s _ it Hwf Hit) in Hpg.
          unfold prev_item in Hp. congruence.
        * apply (getAt_page e s _ it Hwf Hit) in Hpg.
          unfold curr_item in Hc. congruence.
      + destruct (Hsync it el Hit Hel) as [Hpg|Hpg]; [by destruct Hact'|..].
        * apply (getAt_page e s _ it Hwf Hit) in Hpg.
          unfold prev_item in Hp. congruence.
        * apply (getAt_page e s _ it Hwf Hit) in Hpg.
          unfold curr_item in Hc. congruence.
    - exfalso. destruct (prev_item e s) as [p|] eqn:Hp.
      + destruct (decide (button p = button it)) as [Hb'|Hb'].
        { by apply (active_not_inactive _ Hact'), deactivate_is_inactive. }
        destruct (Hsync it el Hit Hel) as [Hpg|Hpg]; [by destruct Hact'|..].
        * apply (getAt_page e s _ it Hwf Hit) in Hpg.
          unfold prev_item in Hp. congruence.
        * apply (getAt_page e s _ it Hwf Hit) in Hpg.
          unfold curr_item in Hc. congruence.
      + destruct (Hsync it el Hit Hel) as [Hpg|Hpg]; [by destruct Hact'|..].
        * apply (getAt_page e s _ it Hwf Hit) in Hpg.
          unfold prev_item in Hp. congruence.
        * apply (getAt_page e s _ it Hwf Hit) in Hpg.
          unfold curr_item in Hc. congruence. }
  split; rewrite update_items.
  - intros it Hit. destruct (Hst it Hit) as (el & Hel & Hd).
    rewrite update_lookup, Hel. simpl. eexists. split; [done|].
    unfold touch. destruct (curr_item e s) as [c|], (prev_item e s) as [p|];
      repeat case_decide;
      auto using activate_is_active, deactivate_is_inactive.
  - intros it it' el el' Hit Hit' Hel Hel' Ha Ha'.
    pose proof (Hact it el Hit Hel Ha). pose proof (Hact it' el' Hit' Hel' Ha').
    congruence.
Qed.

Lemma marked_created e l s : created e l s → marked s ∧ ∀ e', synced e' s.
Proof.
  intros Hc. split; [split|].
  - intros it Hit. destruct (Hc it Hit) as [_ Hb]. eexists. split; [done|].
    right. apply button_el_inactive.
  - intros it it' el el' Hit _ Hel _ Ha _. destruct (Hc it Hit) as [_ Hb].
    rewrite Hb in Hel. injection Hel as <-.
    destruct (active_not_inactive _ Ha (button_el_inactive _ _ _)).
  - intros e' it el Hit Hel Ha. destruct (Hc it Hit) as [_ Hb].
    rewrite Hb in Hel. injection Hel as <-.
    by destruct (button_el_inactive e (li it) (page it)).
Qed.

Lemma marked_shape s s' :
  marked s → items s' = items s → document s' = document s → marked s'.
Proof. intros [H1 H2] Hi Hd. split; rewrite Hi, Hd; done. Qed.

Lemma synced_shape e s s' :
  synced e s → items s' = items s → document s' = document s → synced e s'.
Proof. intros H Hi Hd. unfold synced. rewrite Hi, Hd. done. Qed.

Lemma marked_init e s s' : wf s → init e s = Some s' → marked s'.
Proof.
  intros Hwf. unfold init.
  destruct (truthy (pagination e) && isEnough e).
  - destruct (createPagination e (destroy s)) as [s1|] eqn:Hc; [|done].
    simpl. intros [= <-].
    destruct (createPagination_spec e (destroy s) s1) as (n & _ & _ & _ & _ & Hcr & Hwf1 & _);
      [by apply wf_destroy|by apply destroy_items|apply destroy_list|done|].
    destruct (marked_created e _ s1 Hcr) as [Hm Hs].
    apply marked_update.
    + by apply wf_emit.
    + by apply (marked_shape s1).
    + by apply (synced_shape e s1).
  - intros [= <-]. by apply marked_no_items, destroy_items.
Qed.

Lemma marked_step s s' : wf s → marked s → step synced s s' → marked s'.
Proof.
  intros Hwf Hm [e s1 Hmount|e s1 Hinit|e Hsync|].
  - unfold mount in Hmount. destruct (init e s) as [s2|] eqn:Hi; [|done].
    simpl in Hmount. injection Hmount as <-.
    by apply (marked_shape s2); [eapply marked_init|..].
  - by eapply marked_init.
  - by apply marked_update.
  - by apply marked_no_items, destroy_items.
Qed.

Lemma reachable_marked s : reachable synced s → marked s.
Proof.
  induction 1 as [|s s' Hr IH Hstep]; [by apply marked_no_items|].
  eapply marked_step; eauto using reachable_wf.
Qed.

Lemma example_state_items :
  items example_state = [mkItem 1 2 0; mkItem 3 4 1; mkItem 5 6 2].
Proof. vm_compute. reflexivity. Qed.

Lemma example_state_synced : synced (example_env 0 1) example_state.
Proof.
  intros it el Hit Hel Ha. rewrite example_state_items in Hit.
  repeat (apply elem_of_cons in Hit as [->|Hit]); simpl.
  - by left.
  - by right.
  - exfalso. vm_compute in Hel. injection Hel as <-. simpl in Ha.
    apply list_elem_of_singleton in Ha. done.
  - by apply elem_of_nil in Hit.
Qed.

(** C5, with the condition it needs: in every state reached by mount, init,
    update and destroy, where each update() finds the button that carries the
    active class (if there is one) at the page of getIndex(true) or of
    getIndex(), at most one button carries the active class or aria-selected,
    and the buttons with tabindex -1 are exactly the others. *)
Theorem roving_tabindex s : reachable synced s → roving s.
Proof. intros Hr. by apply marked_roving, reachable_marked. Qed.

Lemma roving_tabindex_witness : roving (update (example_env 0 1) example_state).
Proof.
  apply (roving_tabindex (update (example_env 0 1) example_state)).
  eapply reachable_step; [apply example_state_reachable|].
  apply step_update, example_state_synced.
Defined.

(** C5 as stated fails: after mount() with the first slide current, an
    update() that sees the second slide as previous and the third as current
    leaves the first button active and makes the third active too. *)
Lemma roving_tabindex_needs_sync :
  reachable any_time (update (example_env 1 2) example_state)
  ∧ ¬ roving (update (example_env 1 2) example_state).
Proof.
  split.
  - eapply reachable_step; [apply example_state_reachable|]. by apply step_update.
  - intros [Hone _].
    assert (Hi : items (update (example_env 1 2) example_state) =
                 [mkItem 1 2 0; mkItem 3 4 1; mkItem 5 6 2])
      by (vm_compute; reflexivity).
    destruct (document (update (example_env 1 2) example_state) !! 2%nat) as [el|] eqn:Hel;
      [|by vm_compute in Hel].
    destruct (document (update (example_env 1 2) example_state) !! 6%nat) as [el'|] eqn:Hel';
      [|by vm_compute in Hel'].
    specialize (Hone (mkItem 1 2 0) (mkItem 5 6 2) el el').
    rewrite Hi in Hone.
    assert (Heq : mkItem 1 2 0 = mkItem 5 6 2); [|discriminate Heq].
    apply Hone; [repeat constructor..|exact Hel|exact Hel'| |].
    + vm_compute in Hel. injection Hel as <-. left. repeat constructor.
    + vm_compute in Hel'. injection Hel' as <-. left. repeat constructor.
Qed.

(** C4, evaluated on three pages: Home and End on the button of page 1 focus
    the buttons of pages 0 and 2 but pass '>1' to go; ArrowRight on the last
    page focuses the button of page 0 and passes '>3'; ArrowLeft on the first
    page focuses the button of page 2 and passes '>-1'.  In every case the
    event is prevented. *)
Theorem keydown_goes_to_page :
  dispatchEvent (example_env 0 0) 4%nat "keydown" (mkKeyboardEvent "Home") example_state
  = call (Prevent true) (call (Go ">1" None) (call (Focus 2%nat) example_state))
  ∧ dispatchEvent (example_env 0 0) 4%nat "keydown" (mkKeyboardEvent "End") example_state
    = call (Prevent true) (call (Go ">1" None) (call (Focus 6%nat) example_state))
  ∧ dispatchEvent (example_env 0 0) 6%nat "keydown" (mkKeyboardEvent "ArrowRight")
      example_state
    = call (Prevent true) (call (Go ">3" None) (call (Focus 2%nat) example_state))
  ∧ dispatchEvent (example_env 0 0) 2%nat "keydown" (mkKeyboardEvent "ArrowLeft")
      example_state
    = call (Prevent true) (call (Go ">-1" None) (call (Focus 6%nat) example_state)).
Proof. split_and!; vm_compute; reflexivity. Qed.

(** ** [init], start to end *)

Lemma update_lookup_other e s x el :
  wf s → document s !! x = Some el → tag el ≠ "button" →
  document (update e s) !! x = Some el.
Proof.
  intros Hwf Hel Ht. rewrite update_lookup, Hel. simpl. f_equal.
  assert (Hnb : ∀ idx it, getAt e s idx = Some it → button it ≠ x).
  { intros idx it Hit <-. apply getAt_elem in Hit.
    destruct (wf_button s Hwf it Hit) as (el' & Hel' & Ht'). congruence. }
  unfold touch, curr_item, prev_item.
  destruct (getAt e s (getIndex e false)) as [c|] eqn:Hc,
           (getAt e s (getIndex e true)) as [p|] eqn:Hp;
    repeat case_decide; try done; exfalso; naive_solver.
Qed.

(** What [update] makes of the button of the page [i]. *)
Lemma touch_page e s index f i it el :
  wf s → items s !! i = Some it →
  touch (getAt e s index) f (button it) el =
  if decide (toPage e index = Z.of_nat i) then f el else el.
Proof.
  intros Hwf Hi. pose proof (list_elem_of_lookup_2 _ _ _ Hi) as Hit.
  unfold touch. destruct (getAt e s index) as [c|] eqn:Hc.
  - pose proof (getAt_elem _ _ _ _ Hc) as Hcin.
    apply getAt_Some in Hc as [Hz Hc].
    pose proof (wf_page s Hwf _ _ Hc) as Hpc. pose proof (wf_page s Hwf _ _ Hi) as Hpi.
    destruct (decide (button c = button it)) as [Hb|Hb].
    + apply (button_inj s) in Hb; [|done..]. subst c.
      rewrite decide_True; [done|]. lia.
    + rewrite decide_False; [done|]. intros Heq.
      rewrite Heq, Nat2Z.id in Hc. congruence.
  - rewrite decide_False; [done|]. intros Heq.
    pose proof (getAt_page e s index it Hwf Hit) as Hg.
    rewrite Hc in Hg. rewrite (wf_page s Hwf _ _ Hi) in Hg. by specialize (Hg (eq_sym Heq)).
Qed.

Lemma init_enabled e s s' :
  wf s → truthy (pagination e) && isEnough e = true → init e s = Some s' →
  ∃ s1 n, createPagination e (destroy s) = Some s1
    ∧ iterations (max e) = Some n
    ∧ s' = update e (emit EVENT_PAGINATION_MOUNTED [getAt e s1 (splide_index e)] s1)
    ∧ list_ s1 = Some (next s)
    ∧ document s1 !! next s = Some (ul_el e)
    ∧ length (items s1) = n
    ∧ created e (next s) s1
    ∧ wf s1
    ∧ ∀ x, (x < next s)%nat → document s1 !! x = document (destroy s) !! x.
Proof.
  intros Hwf Hen. unfold init. rewrite Hen.
  destruct (createPagination e (destroy s)) as [s1|] eqn:Hc; [|done].
  simpl. intros [= <-].
  destruct (createPagination_spec e (destroy s) s1)
    as (n & Hn & Hl & Hul & Hlen & Hcr & Hwf1 & _ & _ & Hold);
    [by apply wf_destroy|by apply destroy_items|apply destroy_list|done|].
  rewrite destroy_next in *. exists s1, n. split_and!; done.
Qed.

Lemma init_defined e s s' : init e s = Some s' → ∀ s0, is_Some (init e s0).
Proof.
  unfold init. intros H s0.
  destruct (truthy (pagination e) && isEnough e); [|done].
  rewrite createPagination_eq in *.
  destruct (iterations (max e)); [|done]. simpl. eauto.
Qed.

Lemma init_terminates e s :
  is_Some (iterations (max e)) → is_Some (init e s).
Proof.
  intros [n Hn]. unfold init.
  destruct (truthy (pagination e) && isEnough e); [|done].
  rewrite createPagination_eq, Hn. simpl. eauto.
Qed.

Lemma ul_el_attrs e :
  attrs (ul_el e) !! ROLE = Some (AStr "tablist")
  ∧ attrs (ul_el e) !! ARIA_LABEL = Some (AStr (i18n_select e)).
Proof.
  unfold ul_el; simpl. split.
  - by rewrite lookup_insert_ne, lookup_insert_eq.
  - by rewrite lookup_insert_eq.
Qed.

Lemma button_el_attrs e li i :
  attrs (button_el e li i) !! ROLE = Some (AStr "tab")
  ∧ attrs (button_el e li i) !! Attr "type" = Some (AStr "button").
Proof.
  unfold button_el; cbn [attrs El.setAttribute]. split.
  - do 3 (rewrite lookup_insert_ne by done). by rewrite lookup_insert_eq.
  - do 4 (rewrite lookup_insert_ne by done).
    change (list_to_map [(Attr "type", AStr "button")] : gmap AttrName AttrVal)
      with (<[Attr "type" := AStr "button"]> (∅ : gmap AttrName AttrVal)).
    by rewrite lookup_insert_eq.
Qed.

(** C2, as the code has it: with options.pagination truthy and isEnough(),
    init() leaves exactly one list in the document, a ul with role tablist
    and aria-label i18n.select under the slider or the root, holding exactly
    max items (none when max is negative); the i-th item, for i in [0, max),
    has page i, an li with role none in the list and in it a button with
    role tab and type button.  The button has tabindex -1 and is not
    selected, except the button of the page of the current index, which
    update() has made active at the end of init(). *)
Theorem init_creates e s m :
  wf s → truthy (pagination e) = true → isEnough e = true → max e = Int m →
  ∃ s' l ul,
    init e s = Some s'
    ∧ list_ s' = Some l ∧ document s' !! l = Some ul
    ∧ tag ul = "ul" ∧ parent ul = Some (parent_of e)
    ∧ attrs ul !! ROLE = Some (AStr "tablist")
    ∧ attrs ul !! ARIA_LABEL = Some (AStr (i18n_select e))
    ∧ (∀ x el, document s' !! x = Some el → tag el = "ul" → is_Some (parent el) → x = l)
    ∧ Z.of_nat (length (items s')) = Z.max 0 m
    ∧ (∀ x el, document s' !! x = Some el → parent el = Some (Own l) →
         ∃ it, it ∈ items s' ∧ li it = x)
    ∧ ∀ i, 0 ≤ i < m →
        ∃ it eli elb,
          items s' !! Z.to_nat i = Some it ∧ page it = i
          ∧ document s' !! li it = Some eli
          ∧ tag eli = "li" ∧ parent eli = Some (Own l)
          ∧ attrs eli !! ROLE = Some (AStr "none")
          ∧ document s' !! button it = Some elb
          ∧ tag elb = "button" ∧ parent elb = Some (Own (li it))
          ∧ attrs elb !! ROLE = Some (AStr "tab")
          ∧ attrs elb !! Attr "type" = Some (AStr "button")
          ∧ if decide (toPage e (getIndex e false) = i)
            then is_active elb else is_inactive elb.
Proof.
  intros Hwf Hp He Hm.
  assert (Hen : truthy (pagination e) && isEnough e = true) by (by rewrite Hp, He).
  destruct (init_terminates e s) as [s' Hinit].
  { rewrite Hm. simpl. eauto. }
  destruct (init_enabled e s s' Hwf Hen Hinit)
    as (s1 & n & _ & Hn & -> & Hl & Hul & Hlen & Hcr & Hwf1 & _).
  rewrite Hm in Hn. simpl in Hn. injection Hn as <-.
  set (s2 := emit EVENT_PAGINATION_MOUNTED [getAt e s1 (splide_index e)] s1) in *.
  assert (Hwf2 : wf s2) by (by apply wf_emit).
  pose proof (wf_update e s2 Hwf2) as Hwf'.
  exists (update e s2), (next s), (ul_el e).
  destruct (ul_el_attrs e) as [Hrole Hlabel].
  split_and!; try done.
  - by rewrite update_list.
  - by apply update_lookup_other.
  - intros x el Hx Ht Hpar.
    pose proof (wf_attached _ Hwf' x el Hx Ht Hpar) as Hx'.
    rewrite update_list in Hx'. simpl in Hx'. congruence.
  - rewrite update_items. simpl. lia.
  - intros x el Hx Hpar. apply (wf_children _ Hwf' (next s) x el); [|done..].
    by rewrite update_list.
  - intros i Hi. rewrite update_items. simpl.
    destruct (lookup_lt_is_Some_2 (items s1) (Z.to_nat i)) as [it Hit]; [lia|].
    pose proof (list_elem_of_lookup_2 _ _ _ Hit) as Hin.
    destruct (Hcr it Hin) as [Hli Hb].
    pose proof (wf_page s1 Hwf1 _ _ Hit) as Hpage.
    exists it, (li_el (next s)).
    pose proof (update_same_but_state e s2 (button it)) as Hsame.
    change (document s2) with (document s1) in Hsame. rewrite Hb in Hsame.
    inversion Hsame as [? elb (Htag & Hpar & _ & Hattrs) Heq1 Heq2|]; subst.
    destruct (button_el_attrs e (li it) (page it)) as [Hr Hty].
    exists elb. split_and!; try done.
    + lia.
    + by apply update_lookup_other.
    + by rewrite Hattrs.
    + by rewrite Hattrs.
    + assert (Helb : elb =
        touch (curr_item e s2) activate (button it)
          (touch (prev_item e s2) deactivate (button it)
             (button_el e (li it) (page it)))).
      { pose proof (update_lookup e s2 (button it)) as Hlk.
        change (document s2) with (document s1) in Hlk.
        rewrite Hb in Hlk. simpl in Hlk. congruence. }
      unfold curr_item, prev_item in Helb.
      rewrite (touch_page e s2 _ _ (Z.to_nat i) it) in Helb by done.
      rewrite (touch_page e s2 _ _ (Z.to_nat i) it) in Helb by done.
      rewrite Z2Nat.id in Helb by lia. subst elb.
      repeat case_decide;
        auto using activate_is_active, deactivate_is_inactive, button_el_inactive.
Qed.

Lemma init_creates_witness :
  ∃ s' l ul,
    init (example_env 0 0) initial = Some s'
    ∧ list_ s' = Some l ∧ document s' !! l = Some ul
    ∧ tag ul = "ul" ∧ parent ul = Some Root
    ∧ attrs ul !! ROLE = Some (AStr "tablist")
    ∧ attrs ul !! ARIA_LABEL = Some (AStr "Select a slide to show")
    ∧ (∀ x el, document s' !! x = Some el → tag el = "ul" → is_Some (parent el) → x = l)
    ∧ Z.of_nat (length (items s')) = 3
    ∧ (∀ x el, document s' !! x = Some el → parent el = Some (Own l) →
         ∃ it, it ∈ items s' ∧ li it = x)
    ∧ ∀ i, 0 ≤ i < 3 →
        ∃ it eli elb,
          items s' !! Z.to_nat i = Some it ∧ page it = i
          ∧ document s' !! li it = Some eli
          ∧ tag eli = "li" ∧ parent eli = Some (Own l)
          ∧ attrs eli !! ROLE = Some (AStr "none")
          ∧ document s' !! button it = Some elb
          ∧ tag elb = "button" ∧ parent elb = Some (Own (li it))
          ∧ attrs elb !! ROLE = Some (AStr "tab")
          ∧ attrs elb !! Attr "type" = Some (AStr "button")
          ∧ if decide (0 = i) then is_active elb else is_inactive elb.
Proof.
  apply (init_creates (example_env 0 0) initial 3); [apply wf_initial|done..].
Defined.

(** C2 as stated fails for the current page: after init() on three slides
    with the first one current, the first button has tabindex set to the
    empty string, not -1. *)
Lemma init_current_button_tabindex :
  ∃ s' it elb,
    init (example_env 0 0) initial = Some s'
    ∧ items s' !! 0%nat = Some it
    ∧ document s' !! button it = Some elb
    ∧ attrs elb !! TAB_INDEX = Some (AStr "")
    ∧ attrs elb !! TAB_INDEX ≠ Some (ANum (-1)).
Proof.
  eexists _, _, _. split_and!.
  - vm_compute. reflexivity.
  - vm_compute. reflexivity.
  - vm_compute. reflexivity.
  - vm_compute. reflexivity.
  - vm_compute. discriminate.
Qed.

(** ** The pagination [init] leaves does not depend on the state before *)

Lemma unparent_mark e i el : unparent (mark e i el) = mark e i (unparent el).
Proof. unfold mark. by repeat case_decide. Qed.

Lemma update_button_lookup e s i it el :
  wf s → items s !! i = Some it → document s !! button it = Some el →
  document (update e s) !! button it = Some (mark e (Z.of_nat i) el).
Proof.
  intros Hwf Hi Hel. rewrite update_lookup, Hel. simpl. f_equal.
  unfold curr_item, prev_item, mark.
  by rewrite !(touch_page e s _ _ i it).
Qed.

Lemma mark_parent e i el : parent (mark e i el) = parent el.
Proof. unfold mark. by repeat case_decide. Qed.

Lemma init_item_view_eq e s1 l i it :
  wf s1 → list_ s1 = Some l → created e l s1 → items s1 !! i = Some it →
  item_view (update e (emit EVENT_PAGINATION_MOUNTED [getAt e s1 (splide_index e)] s1)) it
  = init_item_view e (Z.of_nat i).
Proof.
  intros Hwf Hl Hcr Hi.
  set (s2 := emit EVENT_PAGINATION_MOUNTED [getAt e s1 (splide_index e)] s1).
  assert (Hwf2 : wf s2) by (by apply wf_emit).
  pose proof (list_elem_of_lookup_2 _ _ _ Hi) as Hin.
  destruct (Hcr it Hin) as [Hli Hb].
  unfold item_view, init_item_view.
  rewrite (update_lookup_other e s2 (li it) (li_el l)) by done.
  rewrite (update_button_lookup e s2 i it (button_el e (li it) (page it))) by done.
  rewrite update_list. change (list_ s2) with (list_ s1). rewrite Hl.
  rewrite (wf_page s1 Hwf i it Hi).
  cbn [fmap option_fmap option_map].
  rewrite unparent_mark, mark_parent.
  unfold listeners_view. rewrite update_listeners.
  change (listeners s2) with (listeners s1).
  rewrite (wf_listeners s1 Hwf i it Hi).
  f_equal; by rewrite ?bool_decide_eq_true_2.
Qed.

Lemma init_view_eq e s s' : wf s → init e s = Some s' → view s' = init_view e.
Proof.
  intros Hwf Hinit. unfold init_view.
  destruct (truthy (pagination e) && isEnough e) eqn:Hen.
  - destruct (init_enabled e s s' Hwf Hen Hinit)
      as (s1 & n & _ & Hn & -> & Hl & Hul & Hlen & Hcr & Hwf1 & _).
    rewrite Hn.
    set (s2 := emit EVENT_PAGINATION_MOUNTED [getAt e s1 (splide_index e)] s1).
    assert (Hwf2 : wf s2) by (by apply wf_emit).
    unfold view. f_equal.
    + unfold list_view. rewrite update_list. change (list_ s2) with (list_ s1).
      rewrite Hl. cbn [mbind option_bind].
      rewrite (update_lookup_other e s2 (next s) (ul_el e)) by done.
      cbn [mbind option_bind]. unfold listeners_view.
      rewrite update_listeners. change (listeners s2) with (listeners s1).
      rewrite (wf_list_listeners s1 Hwf1 _ Hl).
      cbn [fmap list_fmap handler_view fst snd]. by rewrite !decide_True.
    + rewrite update_items. change (items s2) with (items s1).
      apply list_eq. intros i. rewrite !list_lookup_fmap.
      destruct (items s1 !! i) as [it|] eqn:Hi.
      * pose proof (lookup_lt_Some _ _ _ Hi) as Hlt.
        rewrite lookup_seq_lt by lia. cbn [fmap option_fmap option_map].
        f_equal. by apply (init_item_view_eq e s1 (next s)).
      * apply lookup_ge_None in Hi. by rewrite lookup_seq_ge by lia.
  - unfold init in Hinit. rewrite Hen in Hinit. injection Hinit as <-.
    unfold view, list_view. by rewrite destroy_list, destroy_items.
Qed.

Lemma createItems_fresh e l n i s it :
  it ∈ items (createItems e l n i s) →
  it ∈ items s ∨ (next s ≤ li it ∧ next s ≤ button it)%nat.
Proof.
  revert i s. induction n as [|n IH]; intros i s Hit; simpl in Hit; [by left|].
  rewrite createItem_eq in Hit. apply IH in Hit as [Hit|Hit]; simpl in Hit.
  - apply elem_of_app in Hit as [Hit|Hit]; [by left|].
    apply list_elem_of_singleton in Hit as ->. simpl. right. lia.
  - right. lia.
Qed.

Lemma createPagination_fresh e s s' it :
  items s = [] → createPagination e s = Some s' → it ∈ items s' →
  (next s < li it ∧ next s < button it)%nat.
Proof.
  intros Hi Hc Hit. rewrite createPagination_eq in Hc.
  destruct (iterations (max e)) as [n|]; [|done]. injection Hc as <-.
  apply createItems_fresh in Hit as [Hit|Hit]; simpl in Hit.
  - rewrite Hi in Hit. by apply elem_of_nil in Hit.
  - lia.
Qed.

(** C7: init() twice in a row, with the collaborators unchanged, leaves the
    pagination that init() once leaves: the second call ends, the list and
    the items look the same (pages, tags, classes, attributes, nesting and
    listeners) and are as many; the items are new elements with buttons of
    their own; the only list in the document is the new one, and the list of
    the first call has been taken out of it. *)
Theorem init_idempotent e s s1 :
  wf s → init e s = Some s1 →
  ∃ s2,
    init e s1 = Some s2
    ∧ view s2 = view s1
    ∧ length (items s2) = length (items s1)
    ∧ NoDup (button <$> items s2)
    ∧ (∀ it, it ∈ items s2 → it ∉ items s1)
    ∧ (∀ x el, document s2 !! x = Some el → tag el = "ul" → is_Some (parent el) →
         list_ s2 = Some x)
    ∧ (∀ l1, list_ s1 = Some l1 →
         list_ s2 ≠ Some l1
         ∧ ∃ el, document s2 !! l1 = Some el ∧ tag el = "ul" ∧ parent el = None).
Proof.
  intros Hwf Hinit. pose proof (wf_init e s s1 Hwf Hinit) as Hwf1.
  destruct (init_defined e s s1 Hinit s1) as [s2 Hinit2]. exists s2.
  pose proof (wf_init e s1 s2 Hwf1 Hinit2) as Hwf2.
  assert (Hview : view s2 = view s1).
  { by rewrite (init_view_eq e s s1), (init_view_eq e s1 s2). }
  split_and!; try done.
  - apply (f_equal snd) in Hview. simpl in Hview.
    apply (f_equal length) in Hview. by rewrite !length_fmap in Hview.
  - by apply wf_buttons.
  - intros it Hit Hit1.
    destruct (truthy (pagination e) && isEnough e) eqn:Hen.
    + destruct (init_enabled e s1 s2 Hwf1 Hen Hinit2)
        as (s3 & n & Hc & _ & -> & _).
      rewrite update_items in Hit. simpl in Hit.
      apply (createPagination_fresh e (destroy s1) s3 it) in Hit;
        [|by apply destroy_items|done].
      rewrite destroy_next in Hit.
      destruct (wf_button s1 Hwf1 it Hit1) as (el & Hel & _).
      assert (button it < next s1)%nat by (apply (wf_next_document s1 Hwf1); eauto).
      lia.
    + unfold init in Hinit2. rewrite Hen in Hinit2. injection Hinit2 as <-.
      rewrite destroy_items in Hit by done. by apply elem_of_nil in Hit.
  - by apply wf_attached.
  - intros l1 Hl1.
    destruct (wf_list s1 Hwf1 l1 Hl1) as (el1 & Hel1 & Ht1).
    assert (Hlt : (l1 < next s1)%nat) by (apply (wf_next_document s1 Hwf1); eauto).
    destruct (truthy (pagination e) && isEnough e) eqn:Hen.
    + destruct (init_enabled e s1 s2 Hwf1 Hen Hinit2)
        as (s3 & n & _ & _ & -> & Hl3 & _ & _ & _ & Hwf3 & Hold).
      split.
      * rewrite update_list. simpl. rewrite Hl3. intros [= ?]. lia.
      * exists (El.remove el1). split_and!; [|done..].
        apply update_lookup_other; [by apply wf_emit| |by simpl; rewrite Ht1].
        simpl. rewrite Hold by done. rewrite (destroy_some s1 l1 Hl1). simpl.
        by rewrite lookup_alter_eq, Hel1.
    + unfold init in Hinit2. rewrite Hen in Hinit2. injection Hinit2 as <-.
      split; [by rewrite destroy_list|].
      exists (El.remove el1). split_and!; [|done..].
      rewrite (destroy_some s1 l1 Hl1). simpl. by rewrite lookup_alter_eq, Hel1.
Qed.

Lemma init_idempotent_witness :
  ∃ s2,
    init (example_env 0 0) example_init = Some s2
    ∧ view s2 = view example_init
    ∧ length (items s2) = length (items example_init)
    ∧ NoDup (button <$> items s2)
    ∧ (∀ it, it ∈ items s2 → it ∉ items example_init)
    ∧ (∀ x el, document s2 !! x = Some el → tag el = "ul" → is_Some (parent el) →
         list_ s2 = Some x)
    ∧ (∀ l1, list_ example_init = Some l1 →
         list_ s2 ≠ Some l1
         ∧ ∃ el, document s2 !! l1 = Some el ∧ tag el = "ul" ∧ parent el = None).
Proof.
  apply (init_idempotent (example_env 0 0) initial example_init).
  - apply wf_initial.
  - vm_compute. reflexivity.
Defined.

(** ** What [onKeydown] does, key by key *)

Lemma keydown_dispatch e s ev i it :
  wf s → items s !! i = Some it →
  dispatchEvent e (button it) "keydown" ev s = onKeydown e (Z.of_nat i) ev s.
Proof.
  intros Hwf Hi. unfold dispatchEvent.
  by rewrite (listeners_of_button_keydown s i it).
Qed.

Lemma onKeydown_arrow_right e s p ev it :
  normalizeKey e ev = resolve e "ArrowRight" →
  0 ≤ p < Z.of_nat (length (items s)) →
  items s !! Z.to_nat ((p + 1) `mod` Z.of_nat (length (items s))) = Some it →
  onKeydown e p ev s =
  call (Prevent true) (call (Go (">" +:+ pretty (p + 1)) None) (call (Focus (button it)) s)).
Proof.
  intros Hk Hp Hit. unfold onKeydown. rewrite decide_True by done.
  unfold js_rem, js_index. rewrite decide_False by lia.
  rewrite Z.rem_mod_nonneg by lia.
  rewrite decide_True by (apply Z.mod_pos_bound; lia).
  by rewrite Hit.
Qed.

Lemma onKeydown_home e s p ev it :
  normalizeKey e ev = "Home" →
  "Home" ≠ resolve e "ArrowRight" → "Home" ≠ resolve e "ArrowLeft" →
  items s !! 0%nat = Some it →
  onKeydown e p ev s =
  call (Prevent true) (call (Go (">" +:+ pretty p) None) (call (Focus (button it)) s)).
Proof.
  intros Hk Hr Hl Hit. unfold onKeydown. rewrite Hk.
  rewrite !decide_False by done. rewrite decide_True by done.
  unfold js_index. rewrite decide_True by done.
  change (Z.to_nat 0) with 0%nat. by rewrite Hit.
Qed.

Lemma onKeydown_other_key e s p ev :
  normalizeKey e ev ≠ resolve e "ArrowRight" →
  normalizeKey e ev ≠ resolve e "ArrowLeft" →
  normalizeKey e ev ≠ "Home" → normalizeKey e ev ≠ "End" →
  onKeydown e p ev s = s.
Proof.
  intros. unfold onKeydown. by rewrite !decide_False by done.
Qed.

(** * Further properties of the component *)

(** ** Keys *)

(** X1: on the key that Direction.resolve gives for ArrowRight, pressed on
    the button of page p of n pages, onKeydown focuses the button of page
    (p + 1) mod n, passes '>' followed by p + 1 (not wrapped) to go, and
    prevents the event. *)
Theorem onKeydown_next e s p ev :
  normalizeKey e ev = resolve e "ArrowRight" →
  0 ≤ p < Z.of_nat (length (items s)) →
  ∃ it,
    items s !! Z.to_nat ((p + 1) `mod` Z.of_nat (length (items s))) = Some it
    ∧ onKeydown e p ev s =
      call (Prevent true)
        (call (Go (">" +:+ pretty (p + 1)) None) (call (Focus (button it)) s)).
Proof.
  intros Hk Hp.
  destruct (lookup_lt_is_Some_2 (items s)
              (Z.to_nat ((p + 1) `mod` Z.of_nat (length (items s))))) as [it Hit].
  { pose proof (Z.mod_pos_bound (p + 1) (Z.of_nat (length (items s)))). lia. }
  exists it. split; [done|]. by apply onKeydown_arrow_right.
Qed.

Lemma onKeydown_next_witness :
  ∃ it,
    items example_state !! Z.to_nat ((2 + 1) `mod` Z.of_nat (length (items example_state)))
      = Some it
    ∧ onKeydown (example_env 0 0) 2 (mkKeyboardEvent "ArrowRight") example_state =
      call (Prevent true)
        (call (Go (">" +:+ pretty (2 + 1)) None) (call (Focus (button it)) example_state)).
Proof.
  apply (onKeydown_next (example_env 0 0) example_state 2 (mkKeyboardEvent "ArrowRight")).
  - reflexivity.
  - rewrite example_state_items. simpl. lia.
Defined.

(** X2: on the key that Direction.resolve gives for ArrowLeft (and not for
    ArrowRight), pressed on the button of page p of n pages, onKeydown
    focuses the button of page (p - 1 + n) mod n, passes '>' followed by
    p - 1 (not wrapped, -1 on the first page) to go, and prevents the
    event. *)
Theorem onKeydown_previous e s p ev :
  normalizeKey e ev = resolve e "ArrowLeft" →
  normalizeKey e ev ≠ resolve e "ArrowRight" →
  0 ≤ p < Z.of_nat (length (items s)) →
  ∃ it,
    items s !! Z.to_nat ((p - 1 + Z.of_nat (length (items s)))
                           `mod` Z.of_nat (length (items s))) = Some it
    ∧ onKeydown e p ev s =
      call (Prevent true)
        (call (Go (">" +:+ pretty (p - 1)) None) (call (Focus (button it)) s)).
Proof.
  intros Hk Hne Hp.
  destruct (lookup_lt_is_Some_2 (items s)
              (Z.to_nat ((p - 1 + Z.of_nat (length (items s)))
                           `mod` Z.of_nat (length (items s))))) as [it Hit].
  { pose proof (Z.mod_pos_bound (p - 1 + Z.of_nat (length (items s)))
                  (Z.of_nat (length (items s)))). lia. }
  exists it. split; [done|].
  unfold onKeydown. rewrite decide_False by done. rewrite decide_True by done.
  unfold js_rem, js_index. rewrite decide_False by lia.
  rewrite Z.rem_mod_nonneg by lia.
  rewrite decide_True by (apply Z.mod_pos_bound; lia).
  by rewrite Hit.
Qed.

Lemma onKeydown_previous_witness :
  ∃ it,
    items example_state !! Z.to_nat ((0 - 1 + Z.of_nat (length (items example_state)))
                                       `mod` Z.of_nat (length (items example_state)))
      = Some it
    ∧ onKeydown (example_env 0 0) 0 (mkKeyboardEvent "ArrowLeft") example_state =
      call (Prevent true)
        (call (Go (">" +:+ pretty (0 - 1)) None) (call (Focus (button it)) example_state)).
Proof.
  apply (onKeydown_previous (example_env 0 0) example_state 0 (mkKeyboardEvent "ArrowLeft")).
  - reflexivity.
  - discriminate.
  - rewrite example_state_items. simpl. lia.
Defined.

(** X3: on Home or End (when neither is what Direction.resolve gives for an
    arrow key) and with at least one item, onKeydown focuses the first or the
    last button, prevents the event, and passes to go the page of the button
    the key was pressed on, whatever that page is. *)
Theorem onKeydown_home_end e s p ev :
  normalizeKey e ev = "Home" ∨ normalizeKey e ev = "End" →
  normalizeKey e ev ≠ resolve e "ArrowRight" →
  normalizeKey e ev ≠ resolve e "ArrowLeft" →
  items s ≠ [] →
  ∃ it,
    items s !! (if decide (normalizeKey e ev = "Home") then 0%nat
                else (length (items s) - 1)%nat) = Some it
    ∧ onKeydown e p ev s =
      call (Prevent true)
        (call (Go (">" +:+ pretty p) None) (call (Focus (button it)) s)).
Proof.
  intros Hk Hr Hl Hne.
  assert (Hlen : (0 < length (items s))%nat).
  { destruct (items s); [done|simpl; lia]. }
  unfold onKeydown. rewrite !(decide_False (P := normalizeKey e ev = resolve e _)) by done.
  destruct (decide (normalizeKey e ev = "Home")) as [Hh|Hh].
  - destruct (lookup_lt_is_Some_2 (items s) 0) as [it Hit]; [done|].
    exists it. split; [done|].
    unfold js_index. rewrite decide_True by done.
    change (Z.to_nat 0) with 0%nat. by rewrite Hit.
  - destruct Hk as [Hk|Hk]; [done|]. rewrite decide_True by done.
    destruct (lookup_lt_is_Some_2 (items s) (length (items s) - 1)) as [it Hit]; [lia|].
    exists it. split; [done|].
    unfold js_index. rewrite decide_True by lia.
    replace (Z.to_nat (Z.of_nat (length (items s)) - 1))
      with (length (items s) - 1)%nat by lia.
    by rewrite Hit.
Qed.

Lemma onKeydown_home_end_witness :
  ∃ it,
    items example_state !! (length (items example_state) - 1)%nat = Some it
    ∧ onKeydown (example_env 0 0) 0 (mkKeyboardEvent "End") example_state =
      call (Prevent true)
        (call (Go (">" +:+ pretty 0) None) (call (Focus (button it)) example_state)).
Proof.
  apply (onKeydown_home_end (example_env 0 0) example_state 0 (mkKeyboardEvent "End")).
  - by right.
  - discriminate.
  - discriminate.
  - rewrite example_state_items. discriminate.
Defined.

(** X4: onKeydown does nothing at all (no focus, no go, the event is not
    prevented) when there are no items, whatever the key, and when the key
    is none of the two resolved arrows, Home and End. *)
Theorem onKeydown_ignored e s p ev :
  items s = []
  ∨ (normalizeKey e ev ≠ resolve e "ArrowRight"
     ∧ normalizeKey e ev ≠ resolve e "ArrowLeft"
     ∧ normalizeKey e ev ≠ "Home" ∧ normalizeKey e ev ≠ "End") →
  onKeydown e p ev s = s.
Proof.
  intros [Hi|(H1 & H2 & H3 & H4)]; [|by apply onKeydown_other_key].
  unfold onKeydown. rewrite Hi.
  repeat case_decide; unfold js_rem, js_index; simpl; by repeat case_decide.
Qed.

Lemma onKeydown_ignored_witness :
  onKeydown (example_env 0 0) 0 (mkKeyboardEvent "ArrowRight") initial = initial
  ∧ onKeydown (example_env 0 0) 1 (mkKeyboardEvent "Enter") example_state = example_state.
Proof.
  split.
  - apply (onKeydown_ignored (example_env 0 0) initial 0 (mkKeyboardEvent "ArrowRight")).
    by left.
  - apply (onKeydown_ignored (example_env 0 0) example_state 1 (mkKeyboardEvent "Enter")).
    right. split_and!; discriminate.
Defined.

(** ** Listeners of the buttons *)


(** X5: a keydown delivered to the button of the i-th item runs
    onKeydown( i, e ) and no other listener. *)
Theorem keydown_runs_onKeydown e s ev i it :
  wf s → items s !! i = Some it →
  dispatchEvent e (button it) "keydown" ev s = onKeydown e (Z.of_nat i) ev s.
Proof.
  intros Hwf Hi. unfold dispatchEvent.
  by rewrite (listeners_of_button_keydown s i it).
Qed.

Lemma keydown_runs_onKeydown_witness :
  dispatchEvent (example_env 0 0) 4%nat "keydown" (mkKeyboardEvent "Home") example_state =
  onKeydown (example_env 0 0) 1 (mkKeyboardEvent "Home") example_state.
Proof.
  apply (keydown_runs_onKeydown (example_env 0 0) example_state (mkKeyboardEvent "Home") 1
           (mkItem 3 4 1)).
  - apply example_state_wf.
  - vm_compute. reflexivity.
Defined.



(** ** [init]: events, termination and size *)

Lemma destroy_keeps_calls s : calls (destroy s) = calls s.
Proof.
  destruct (list_ s) as [l|] eqn:Hl.
  - by rewrite (destroy_some s l).
  - by rewrite destroy_none.
Qed.

Lemma getAt_items e s s' index : items s' = items s → getAt e s' index = getAt e s index.
Proof. intros Hi. unfold getAt. by rewrite Hi. Qed.

(** X7: an init() that returns emits exactly two events when it creates a
    pagination, pagination:mounted with the list, the items and the item of
    Splide.index, then pagination:updated with the previous and the current
    item, and no event when options.pagination is falsy or the slides are not
    enough. *)
Theorem init_emits e s s' :
  init e s = Some s' →
  calls s' =
  calls s ++
  (if truthy (pagination e) && isEnough e then
     [Emit EVENT_PAGINATION_MOUNTED (list_ s') (items s') [getAt e s' (splide_index e)];
      Emit EVENT_PAGINATION_UPDATED (list_ s') (items s') [prev_item e s'; curr_item e s']]
   else []).
Proof.
  unfold init. destruct (truthy (pagination e) && isEnough e).
  - rewrite createPagination_eq.
    destruct (iterations (max e)) as [n|]; [|done]. simpl. intros [= <-].
    set (sc := createItems e (next (destroy s)) n 0 (with_list e (destroy s))).
    set (sm := emit EVENT_PAGINATION_MOUNTED [getAt e sc (splide_index e)] sc).
    rewrite update_calls, update_list, update_items.
    unfold prev_item, curr_item.
    rewrite !(getAt_items e sm (update e sm)) by apply update_items.
    rewrite (getAt_items e sc sm) by done.
    subst sm. simpl. subst sc.
    rewrite createItems_calls. simpl. rewrite destroy_keeps_calls.
    by rewrite <- app_assoc.
  - intros [= <-]. by rewrite destroy_keeps_calls, app_nil_r.
Qed.

Lemma init_emits_witness :
  calls example_init =
  calls initial ++
  [Emit EVENT_PAGINATION_MOUNTED (list_ example_init) (items example_init)
     [getAt (example_env 0 0) example_init 0];
   Emit EVENT_PAGINATION_UPDATED (list_ example_init) (items example_init)
     [prev_item (example_env 0 0) example_init; curr_item (example_env 0 0) example_init]].
Proof.
  apply (init_emits (example_env 0 0) initial example_init).
  vm_compute. reflexivity.
Defined.

(** X8: init() fails to return in exactly one case: options.pagination is
    truthy, the slides are enough, the carousel has no focus option,
    perPage is 0 and there is at least one slide; then max is Infinity and
    the loop of createPagination never ends. *)
Theorem init_never_returns e s :
  init e s = None ↔
  truthy (pagination e) = true ∧ isEnough e = true ∧ hasFocus e = false
  ∧ perPage e = 0 ∧ 0 < splide_length e.
Proof.
  unfold init. rewrite createPagination_eq. unfold max, ceil_div.
  destruct (truthy (pagination e)), (isEnough e), (hasFocus e); simpl;
    try (split; [done|by intros (? & ? & ? & ? & ?)]).
  repeat case_decide; simpl; split; try done; try (intros (? & ? & ? & ? & ?); lia).
Qed.

(** X9: without the focus option and with perPage positive, max is the least
    number of pages of perPage slides that hold all the slides:
    (max - 1) * perPage < Splide.length <= max * perPage. *)
Theorem pages_cover_slides e :
  hasFocus e = false → 0 < perPage e →
  ∃ m, max e = Int m
       ∧ (m - 1) * perPage e < splide_length e ≤ m * perPage e.
Proof.
  intros Hf Hp. unfold max, ceil_div. rewrite Hf, decide_False by lia.
  eexists. split; [done|].
  pose proof (Z.mul_div_le (- splide_length e) (perPage e) Hp).
  pose proof (Z.mul_succ_div_gt (- splide_length e) (perPage e) Hp).
  nia.
Qed.

Lemma pages_cover_slides_witness :
  ∃ m, max (example_env 0 0) = Int m ∧ (m - 1) * 1 < 3 ≤ m * 1.
Proof. apply (pages_cover_slides (example_env 0 0)); [reflexivity|simpl; lia]. Defined.

(** ** [update] twice *)

Ltac attr_lookup :=
  repeat first
    [ rewrite lookup_insert_eq | rewrite lookup_delete_eq
    | rewrite lookup_insert_ne by done | rewrite lookup_delete_ne by done ].

Lemma deactivate_activate el : deactivate (activate el) = deactivate el.
Proof.
  unfold deactivate, activate, El.setAttribute, El.removeAttribute, El.removeClass,
    El.addClass; simpl. f_equal.
  - case_decide; [done|]. apply filter_active_add.
  - apply map_eq. intros a.
    destruct (decide (a = TAB_INDEX)) as [->|]; [by attr_lookup|].
    destruct (decide (a = ARIA_SELECTED)) as [->|]; by attr_lookup.
Qed.

Lemma deactivate_deactivate el : deactivate (deactivate el) = deactivate el.
Proof.
  unfold deactivate, El.setAttribute, El.removeAttribute, El.removeClass; simpl. f_equal.
  - apply filter_active_remove.
  - apply map_eq. intros a.
    destruct (decide (a = TAB_INDEX)) as [->|]; [by attr_lookup|].
    destruct (decide (a = ARIA_SELECTED)) as [->|]; by attr_lookup.
Qed.

Lemma activate_activate el : activate (activate el) = activate el.
Proof.
  destruct (activate_is_active el) as [Hin _].
  unfold activate at 1. unfold El.setAttribute, El.addClass; simpl.
  rewrite decide_True by done.
  unfold activate, El.setAttribute, El.addClass; simpl. f_equal.
  apply map_eq. intros a.
  destruct (decide (a = TAB_INDEX)) as [->|]; [by attr_lookup|].
  destruct (decide (a = ARIA_SELECTED)) as [->|]; by attr_lookup.
Qed.

(** X10: a second update() with the collaborators unchanged changes nothing
    in the document: the buttons keep the classes and attributes the first
    call gave them (the call only emits pagination:updated once more). *)
Theorem update_twice e s :
  document (update e (update e s)) = document (update e s)
  ∧ items (update e (update e s)) = items s
  ∧ list_ (update e (update e s)) = list_ s.
Proof.
  split_and!; [|by rewrite !update_items|by rewrite !update_list].
  apply map_eq. intros x. rewrite (update_lookup e (update e s)).
  unfold curr_item, prev_item.
  rewrite !(getAt_items e s (update e s)) by apply update_items.
  rewrite update_lookup. unfold curr_item, prev_item.
  destruct (document s !! x) as [el|]; simpl; [|done]. f_equal.
  unfold touch.
  destruct (getAt e s (getIndex e false)) as [c|], (getAt e s (getIndex e true)) as [p|];
    repeat case_decide;
    rewrite ?deactivate_activate, ?deactivate_deactivate, ?activate_activate; done.
Qed.

(** ** What [init] writes on the elements and what it leaves alone *)

Lemma button_el_labels e li i :
  attrs (button_el e li i) !! ARIA_LABEL = Some (AStr (button_label e i))
  ∧ attrs (button_el e li i) !! ARIA_CONTROLS = Some (AStr (String.concat " " (getIn e i)))
  ∧ other_classes (button_el e li i) = [Class (classes_page e)].
Proof.
  unfold button_el, other_classes; cbn [attrs classes El.setAttribute]. split_and!.
  - rewrite lookup_insert_ne by done. by rewrite lookup_insert_eq.
  - do 2 (rewrite lookup_insert_ne by done). by rewrite lookup_insert_eq.
  - by rewrite filter_cons_True, filter_nil.
Qed.

(** X11: after an init() that creates a pagination, the list carries the
    class options.classes.pagination, and the button of the i-th item
    carries, besides the active class if it has it, the class
    options.classes.page, aria-controls with the ids of the slides of page i
    joined by spaces, and as aria-label i18n.pageX (when there is no focus
    option and perPage > 1) or i18n.slideX, formatted with i + 1. *)
Theorem init_labels e s s' :
  wf s → truthy (pagination e) && isEnough e = true → init e s = Some s' →
  (∃ l ul, list_ s' = Some l ∧ document s' !! l = Some ul
           ∧ classes ul = [Class (classes_pagination e)])
  ∧ ∀ i it, items s' !! i = Some it →
      ∃ elb, document s' !! button it = Some elb
        ∧ attrs elb !! ARIA_LABEL =
          Some (AStr (format e
                        (if negb (hasFocus e) && bool_decide (1 < perPage e)
                         then i18n_pageX e else i18n_slideX e) (Z.of_nat i + 1)))
        ∧ attrs elb !! ARIA_CONTROLS =
          Some (AStr (String.concat " " (getIn e (Z.of_nat i))))
        ∧ other_classes elb = [Class (classes_page e)].
Proof.
  intros Hwf Hen Hinit.
  destruct (init_enabled e s s' Hwf Hen Hinit)
    as (s1 & n & _ & _ & -> & Hl & Hul & _ & Hcr & Hwf1 & _).
  set (s2 := emit EVENT_PAGINATION_MOUNTED [getAt e s1 (splide_index e)] s1) in *.
  assert (Hwf2 : wf s2) by (by apply wf_emit).
  split.
  - exists (next s), (ul_el e). split_and!; [by rewrite update_list| |done].
    by apply update_lookup_other.
  - intros i it Hi. rewrite update_items in Hi. change (items s2) with (items s1) in Hi.
    pose proof (list_elem_of_lookup_2 _ _ _ Hi) as Hin.
    destruct (Hcr it Hin) as [_ Hb].
    rewrite (wf_page s1 Hwf1 i it Hi) in Hb.
    pose proof (update_same_but_state e s2 (button it)) as Hsame.
    change (document s2) with (document s1) in Hsame. rewrite Hb in Hsame.
    inversion Hsame as [? elb (_ & _ & Hcls & Hattrs) Heq1 Heq2|]; subst.
    destruct (button_el_labels e (li it) (Z.of_nat i)) as (Hlab & Hctl & Hoc).
    exists elb. split_and!; [done| | |congruence].
    + rewrite Hattrs by done. exact Hlab.
    + rewrite Hattrs by done. exact Hctl.
Qed.

Lemma init_labels_witness :
  (∃ l ul, list_ example_init = Some l ∧ document example_init !! l = Some ul
           ∧ classes ul = [Class "splide__pagination"])
  ∧ ∀ i it, items example_init !! i = Some it →
      ∃ elb, document example_init !! button it = Some elb
        ∧ attrs elb !! ARIA_LABEL =
          Some (AStr ("Go to slide %s" +:+ pretty (Z.of_nat i + 1)))
        ∧ attrs elb !! ARIA_CONTROLS =
          Some (AStr (String.concat " " ["slide0" +:+ pretty (Z.of_nat i + 1)]))
        ∧ other_classes elb = [Class "splide__pagination__page"].
Proof.
  apply (init_labels (example_env 0 0) initial example_init).
  - apply wf_initial.
  - reflexivity.
  - vm_compute. reflexivity.
Defined.

Lemma update_lookup_not_item e s x :
  (∀ it, it ∈ items s → button it ≠ x) →
  document (update e s) !! x = document s !! x.
Proof.
  intros Hx. rewrite update_lookup.
  destruct (document s !! x) as [el|]; simpl; [|done]. f_equal.
  unfold touch, curr_item, prev_item.
  destruct (getAt e s (getIndex e false)) as [c|] eqn:Hc,
           (getAt e s (getIndex e true)) as [p|] eqn:Hp;
    repeat case_decide; try done; exfalso;
    repeat match goal with
           | H : getAt _ _ _ = Some _ |- _ => apply getAt_elem, Hx in H
           end; done.
Qed.

Lemma destroy_lookup_other s x :
  list_ s ≠ Some x → document (destroy s) !! x = document s !! x.
Proof.
  intros Hx. destruct (list_ s) as [l|] eqn:Hl; [|by rewrite destroy_none].
  rewrite (destroy_some s l Hl). simpl. apply lookup_alter_ne. congruence.
Qed.

(** X13: init() does not touch the elements of an earlier pagination: every
    element that existed before the call, other than the list it takes out
    of the document, is the same after the call. *)
Theorem init_keeps_old_elements e s s' :
  wf s → init e s = Some s' →
  ∀ x, (x < next s)%nat → list_ s ≠ Some x → document s' !! x = document s !! x.
Proof.
  intros Hwf Hinit x Hx Hl.
  destruct (truthy (pagination e) && isEnough e) eqn:Hen.
  - destruct (init_enabled e s s' Hwf Hen Hinit)
      as (s1 & n & Hc & _ & -> & _ & _ & _ & _ & _ & Hold).
    rewrite update_lookup_not_item.
    + simpl. rewrite Hold by done. by apply destroy_lookup_other.
    + intros it Hit. simpl in Hit.
      apply (createPagination_fresh e (destroy s) s1 it) in Hit;
        [|by apply destroy_items|done].
      rewrite destroy_next in Hit. lia.
  - unfold init in Hinit. rewrite Hen in Hinit. injection Hinit as <-.
    by apply destroy_lookup_other.
Qed.

Lemma init_keeps_old_elements_witness :
  document (default initial (init (example_env 0 1) example_state)) !! 2%nat
  = document example_state !! 2%nat.
Proof.
  apply (init_keeps_old_elements (example_env 0 1) example_state).
  - apply example_state_wf.
  - vm_compute. reflexivity.
  - vm_compute. lia.
  - vm_compute. discriminate.
Defined.

(** X19: the pagination init() leaves looks the same whatever state the
    component was in: from any two states, with the collaborators the same,
    the lists and the items agree in pages, tags, classes, attributes,
    nesting and listeners. *)
Theorem init_result_determined e s t s' t' :
  wf s → wf t → init e s = Some s' → init e t = Some t' → view s' = view t'.
Proof.
  intros Hs Ht His Hit.
  by rewrite (init_view_eq e s s'), (init_view_eq e t t').
Qed.

Lemma init_result_determined_witness :
  view example_init = view (default initial (init (example_env 0 0) example_state)).
Proof.
  apply (init_result_determined (example_env 0 0) initial example_state).
  - apply wf_initial.
  - apply example_state_wf.
  - vm_compute. reflexivity.
  - vm_compute. reflexivity.
Defined.

(** ** The focus class of the list *)

Lemma remove_add_class c el : El.removeClass c (El.addClass c el) = El.removeClass c el.
Proof.
  unfold El.removeClass, El.addClass; simpl. f_equal.
  case_decide; [done|].
  rewrite filter_app, filter_cons_False, filter_nil by (intros H'; by apply H').
  apply app_nil_r.
Qed.

(** X12: focusin on the list adds the focus class to the list and focusout
    removes it, and nothing else changes; focusout after focusin leaves the
    state that focusout alone leaves. *)
Theorem list_focus_class e s l ev :
  wf s → list_ s = Some l →
  dispatchEvent e l "focusin" ev s = addClass l CLASS_FOCUS s
  ∧ dispatchEvent e l "focusout" ev s = removeClass l CLASS_FOCUS s
  ∧ dispatchEvent e l "focusout" ev (dispatchEvent e l "focusin" ev s)
    = removeClass l CLASS_FOCUS s.
Proof.
  intros Hwf Hl.
  assert (Hin : ∀ s', listeners s' = listeners s →
            dispatchEvent e l "focusin" ev s' = addClass l CLASS_FOCUS s').
  { intros s' Hs'. unfold dispatchEvent.
    rewrite Hs', listeners_of_filter, (wf_list_listeners s Hwf l Hl).
    rewrite filter_cons_True by done. rewrite filter_cons_False by done.
    by rewrite filter_nil. }
  assert (Hout : ∀ s', listeners s' = listeners s →
            dispatchEvent e l "focusout" ev s' = removeClass l CLASS_FOCUS s').
  { intros s' Hs'. unfold dispatchEvent.
    rewrite Hs', listeners_of_filter, (wf_list_listeners s Hwf l Hl).
    rewrite filter_cons_False by done. rewrite filter_cons_True by done.
    by rewrite filter_nil. }
  split_and!; [by apply Hin|by apply Hout|].
  rewrite (Hin s) by done. rewrite Hout by done.
  unfold removeClass, addClass, set_document; simpl. f_equal.
  apply map_eq. intros x. destruct (decide (l = x)) as [<-|Hx].
  - rewrite !lookup_alter_eq.
    destruct (document s !! l); simpl; [|done]. by rewrite remove_add_class.
  - by rewrite !lookup_alter_ne.
Qed.

Lemma list_focus_class_witness :
  dispatchEvent (example_env 0 0) 0%nat "focusin" (mkKeyboardEvent "") example_state
  = addClass 0%nat CLASS_FOCUS example_state
  ∧ dispatchEvent (example_env 0 0) 0%nat "focusout" (mkKeyboardEvent "") example_state
    = removeClass 0%nat CLASS_FOCUS example_state
  ∧ dispatchEvent (example_env 0 0) 0%nat "focusout" (mkKeyboardEvent "")
      (dispatchEvent (example_env 0 0) 0%nat "focusin" (mkKeyboardEvent "") example_state)
    = removeClass 0%nat CLASS_FOCUS example_state.
Proof.
  apply (list_focus_class (example_env 0 0) example_state 0%nat (mkKeyboardEvent "")).
  - apply example_state_wf.
  - vm_compute. reflexivity.
Defined.

(** ** [mount] and the bus *)

Lemma destroy_keeps_handlers s : handlers (destroy s) = handlers s.
Proof.
  destruct (list_ s) as [l|] eqn:Hl.
  - by rewrite (destroy_some s l).
  - by rewrite destroy_none.
Qed.

Lemma init_keeps_handlers e s s' : init e s = Some s' → handlers s' = handlers s.
Proof.
  unfold init. destruct (truthy (pagination e) && isEnough e).
  - rewrite createPagination_eq.
    destruct (iterations (max e)) as [n|]; [|done]. simpl. intros [= <-].
    rewrite update_handlers. simpl. rewrite createItems_handlers. simpl.
    apply destroy_keeps_handlers.
  - intros [= <-]. apply destroy_keeps_handlers.
Qed.

(** X14: after mount() on a component that had registered nothing, an
    updated or refresh event on the bus runs init() once, a move or scrolled
    event runs update() once, and the component's own events
    (pagination:mounted, pagination:updated) run nothing. *)
Theorem mount_subscribes e s s' :
  handlers s = [] → mount e s = Some s' →
  ∀ e',
    fire e' EVENT_UPDATED s' = init e' s'
    ∧ fire e' EVENT_REFRESH s' = init e' s'
    ∧ fire e' EVENT_MOVE s' = Some (update e' s')
    ∧ fire e' EVENT_SCROLLED s' = Some (update e' s')
    ∧ fire e' EVENT_PAGINATION_MOUNTED s' = Some s'
    ∧ fire e' EVENT_PAGINATION_UPDATED s' = Some s'.
Proof.
  intros Hh Hm e'. unfold mount in Hm.
  destruct (init e s) as [s1|] eqn:Hi; [|done]. simpl in Hm. injection Hm as <-.
  apply init_keeps_handlers in Hi. unfold fire, on, set_handlers.
  cbn [handlers]. rewrite Hi, Hh. by split_and!.
Qed.

Lemma mount_subscribes_witness :
  fire (example_env 0 1) EVENT_UPDATED example_state = init (example_env 0 1) example_state
  ∧ fire (example_env 0 1) EVENT_REFRESH example_state
    = init (example_env 0 1) example_state
  ∧ fire (example_env 0 1) EVENT_MOVE example_state
    = Some (update (example_env 0 1) example_state)
  ∧ fire (example_env 0 1) EVENT_SCROLLED example_state
    = Some (update (example_env 0 1) example_state)
  ∧ fire (example_env 0 1) EVENT_PAGINATION_MOUNTED example_state = Some example_state
  ∧ fire (example_env 0 1) EVENT_PAGINATION_UPDATED example_state = Some example_state.
Proof.
  apply (mount_subscribes (example_env 0 0) initial example_state).
  - reflexivity.
  - apply example_state_mount.
Defined.

(** ** Items by page *)

(** X15: the item getAt( index ) returns is the item of the page
    Controller.toPage( index ): its page field is that page, and there is
    such an item for every page in [0, items.length). *)
Theorem getAt_finds_page e s index :
  wf s →
  (∀ it, getAt e s index = Some it → page it = toPage e index)
  ∧ (0 ≤ toPage e index < Z.of_nat (length (items s)) →
     ∃ it, getAt e s index = Some it ∧ page it = toPage e index).
Proof.
  intros Hwf.
  assert (H1 : ∀ it, getAt e s index = Some it → page it = toPage e index).
  { intros it Hg. apply getAt_Some in Hg as [Hz Hi].
    rewrite (wf_page s Hwf _ _ Hi). lia. }
  split; [done|]. intros Hr.
  destruct (lookup_lt_is_Some_2 (items s) (Z.to_nat (toPage e index))) as [it Hit]; [lia|].
  assert (Hg : getAt e s index = Some it) by (apply getAt_Some; split; [lia|done]).
  eauto.
Qed.

Lemma getAt_finds_page_witness :
  (∀ it, getAt (example_env 0 0) example_state 2 = Some it → page it = 2)
  ∧ (0 ≤ 2 < Z.of_nat (length (items example_state)) →
     ∃ it, getAt (example_env 0 0) example_state 2 = Some it ∧ page it = 2).
Proof. apply (getAt_finds_page (example_env 0 0) example_state 2), example_state_wf. Defined.

(** ** What [destroy] leaves *)

Lemma unbound_keeps its ls (x : elem) :
  (∀ it, it ∈ its → button it ≠ x) →
  filter (λ l, l.1.1 = x) (unbound its ls) = filter (λ l, l.1.1 = x) ls.
Proof.
  revert ls. induction its as [|it its IH]; intros ls Hx; [done|].
  unfold unbound in *; simpl. rewrite IH by (intros it' Hit'; apply Hx; by right).
  rewrite list_filter_filter. apply list_filter_iff. intros l. simpl. split.
  - by intros [? _].
  - intros Hl. split; [done|]. intros [Hb _].
    apply (Hx it); [by left|congruence].
Qed.

(** X16: destroy() on a component with a list emits nothing, keeps what the
    component registered on the bus, leaves every element but the list as it
    was (the li and button elements stay, under the detached list), and does
    not unbind the focusin and focusout listeners of the list. *)
Theorem destroy_keeps s l :
  wf s → list_ s = Some l →
  calls (destroy s) = calls s
  ∧ handlers (destroy s) = handlers s
  ∧ (∀ x, x ≠ l → document (destroy s) !! x = document s !! x)
  ∧ filter (λ x, x.1.1 = l) (listeners (destroy s)) =
    [(l, "focusin", AddClass l CLASS_FOCUS); (l, "focusout", RemoveClass l CLASS_FOCUS)].
Proof.
  intros Hwf Hl. split_and!.
  - apply destroy_keeps_calls.
  - apply destroy_keeps_handlers.
  - intros x Hx. apply destroy_lookup_other. congruence.
  - rewrite (destroy_some s l Hl). simpl. rewrite unbound_keeps.
    + by apply (wf_list_listeners s Hwf).
    + intros it Hit Hb.
      destruct (wf_button s Hwf it Hit) as (elb & Helb & Htb).
      destruct (wf_list s Hwf l Hl) as (ell & Hell & Htl).
      rewrite Hb in Helb. congruence.
Qed.

Lemma destroy_keeps_witness :
  calls (destroy example_state) = calls example_state
  ∧ handlers (destroy example_state) = handlers example_state
  ∧ (∀ x, x ≠ 0%nat → document (destroy example_state) !! x = document example_state !! x)
  ∧ filter (λ x, x.1.1 = 0%nat) (listeners (destroy example_state)) =
    [(0%nat, "focusin", AddClass 0%nat CLASS_FOCUS);
     (0%nat, "focusout", RemoveClass 0%nat CLASS_FOCUS)].
Proof.
  apply (destroy_keeps example_state 0%nat).
  - apply example_state_wf.
  - vm_compute. reflexivity.
Defined.

(** ** Exactly the current button is active *)

Lemma update_active_is_current e s it el' :
  wf s → marked s → synced e s → it ∈ items s →
  document (update e s) !! button it = Some el' → is_active el' →
  curr_item e s = Some it.
Proof.
  intros Hwf [Hst _] Hsync Hit Hel' Hact.
  destruct (Hst it Hit) as (el & Hel & Hd).
  rewrite update_lookup, Hel in Hel'. simpl in Hel'. injection Hel' as <-.
  destruct (curr_item e s) as [c|] eqn:Hc; simpl in Hact.
  - destruct (decide (button c = button it)) as [Hb|Hb].
    { f_equal. apply (button_inj s); eauto using getAt_elem. }
    exfalso.
    assert (Hprev : prev_item e s ≠ Some it).
    { intros Hp. rewrite Hp in Hact. simpl in Hact. rewrite decide_True in Hact by done.
      by apply (active_not_inactive _ Hact), deactivate_is_inactive. }
    assert (Hel0 : is_active el).
    { destruct (prev_item e s) as [p|] eqn:Hp; simpl in Hact; [|done].
      case_decide as Hbp; [|done]. destruct Hprev. f_equal.
      apply (button_inj s); eauto using getAt_elem. }
    destruct (Hsync it el Hit Hel) as [Hpg|Hpg]; [by destruct Hel0|..];
      apply (getAt_page e s _ it Hwf Hit) in Hpg.
    + by destruct Hprev.
    + unfold curr_item in Hc. rewrite Hc in Hpg. injection Hpg as ->. done.
  - exfalso.
    assert (Hprev : prev_item e s ≠ Some it).
    { intros Hp. rewrite Hp in Hact. simpl in Hact. rewrite decide_True in Hact by done.
      by apply (active_not_inactive _ Hact), deactivate_is_inactive. }
    assert (Hel0 : is_active el).
    { destruct (prev_item e s) as [p|] eqn:Hp; simpl in Hact; [|done].
      case_decide as Hbp; [|done]. destruct Hprev. f_equal.
      apply (button_inj s); eauto using getAt_elem. }
    destruct (Hsync it el Hit Hel) as [Hpg|Hpg]; [by destruct Hel0|..];
      apply (getAt_page e s _ it Hwf Hit) in Hpg.
    + by destruct Hprev.
    + unfold curr_item in Hc. congruence.
Qed.

(** X20: when update() finds the active button, if there is one, at the
    page of the previous or of the current index, then after it the button
    of the current item is active and every other button is not: active
    class, aria-selected and an empty tabindex on the one, none of them and
    tabindex -1 on the others (on all of them when the current index has no
    item). *)
Theorem update_marks_exactly_current e s :
  wf s → marked s → synced e s →
  ∀ it, it ∈ items s →
    ∃ el, document (update e s) !! button it = Some el
          ∧ (curr_item e s = Some it → is_active el)
          ∧ (curr_item e s ≠ Some it → is_inactive el).
Proof.
  intros Hwf Hm Hsync it Hit.
  destruct (marked_update e s Hwf Hm Hsync) as [Hst' _].
  rewrite update_items in Hst'.
  destruct (Hst' it Hit) as (el & Hel & Hd).
  exists el. split_and!; [done| |].
  - intros Hc. pose proof Hel as Hel2.
    destruct Hm as [Hst _]. destruct (Hst it Hit) as (el0 & Hel0 & _).
    rewrite update_lookup, Hel0, Hc in Hel2. simpl in Hel2.
    rewrite decide_True in Hel2 by done. injection Hel2 as <-.
    apply activate_is_active.
  - intros Hc. destruct Hd as [Ha|Hi]; [|done].
    destruct Hc. by apply (update_active_is_current e s it el).
Qed.

Lemma update_marks_exactly_current_witness :
  ∃ el, document (update (example_env 0 1) example_state) !! 4%nat = Some el
        ∧ (curr_item (example_env 0 1) example_state = Some (mkItem 3 4 1) → is_active el)
        ∧ (curr_item (example_env 0 1) example_state ≠ Some (mkItem 3 4 1) →
           is_inactive el).
Proof.
  refine (update_marks_exactly_current (example_env 0 1) example_state _ _ _
            (mkItem 3 4 1) _).
  - apply example_state_wf.
  - apply reachable_marked, example_state_reachable.
  - apply example_state_synced.
  - rewrite example_state_items. right. by left.
Defined.

(** ** Invariants of the reachable states *)

(** X17: in every state reached by mount, init, update and destroy, with
    update() called at any time, the i-th item has page i, the buttons of
    the items are pairwise different elements, items is empty whenever there
    is no list, and the only list that hangs in the document is the
    component's list. *)
Theorem reachable_items s :
  reachable any_time s →
  (∀ i it, items s !! i = Some it → page it = Z.of_nat i)
  ∧ NoDup (button <$> items s)
  ∧ (list_ s = None → items s = [])
  ∧ (∀ x el, document s !! x = Some el → tag el = "ul" → is_Some (parent el) →
       list_ s = Some x).
Proof.
  intros Hr. apply reachable_wf in Hr. destruct Hr. by split_and!.
Qed.

Lemma reachable_items_witness :
  (∀ i it, items (update (example_env 1 2) example_state) !! i = Some it →
     page it = Z.of_nat i)
  ∧ NoDup (button <$> items (update (example_env 1 2) example_state))
  ∧ (list_ (update (example_env 1 2) example_state) = None →
     items (update (example_env 1 2) example_state) = [])
  ∧ (∀ x el, document (update (example_env 1 2) example_state) !! x = Some el →
       tag el = "ul" → is_Some (parent el) →
       list_ (update (example_env 1 2) example_state) = Some x).
Proof.
  apply (reachable_items (update (example_env 1 2) example_state)).
  eapply reachable_step; [apply example_state_reachable|]. by apply step_update.
Defined.

(** X18: init() establishes the roving tabindex whatever the state before
    and whatever the indices: after it at most one button carries the active
    class or aria-selected, and the buttons with tabindex -1 are exactly the
    others, also when the pagination before had two active buttons. *)
Theorem init_roving e s s' : wf s → init e s = Some s' → roving s'.
Proof. intros Hwf Hinit. by apply marked_roving, (marked_init e s). Qed.

Lemma init_roving_witness :
  roving (default initial
            (init (example_env 1 2) (update (example_env 1 2) example_state))).
Proof.
  apply (init_roving (example_env 1 2) (update (example_env 1 2) example_state)).
  - apply wf_update, example_state_wf.
  - vm_compute. reflexivity.
Defined.
